(** * data_biobase: the loading script [run.py]

    A shallow embedding of the orchestration script: the module-level
    configuration code, [run_parser], [create_index], [create_nodesets],
    [create_relationshipsets] and the [__main__] block.  The script drives
    external collaborators (the datasource adapters, the parsers, the
    NodeSet/RelationshipSet objects and the graph client); they are an
    interface here, and every call made through that interface is recorded
    in a trace of events. *)

From Stdlib Require Import Ascii String NArith ZArith.
From stdpp Require Import base option list strings gmap fin_maps.

Local Open Scope string_scope.
Local Open Scope list_scope.

(** ** Python values the script handles *)

(** An exception instance: the name of its class and its message. *)
Record exn := Exn { exn_class : string; exn_msg : string }.

(** The result of evaluating a call: it returns a value or raises. *)
Inductive outcome (A : Type) : Type :=
| Returned (a : A)
| Raised (e : exn).
Arguments Returned {A} a.
Arguments Raised {A} e.

(** What [json.loads] builds.  Numbers are kept as their literal. *)
#[warnings="-register-all"]
Inductive json : Type :=
| JNull
| JBool (b : bool)
| JNum (lit : string)
| JStr (s : string)
| JList (l : list json)
| JDict (d : list (string * json)).

Definition JSONDecodeError (msg : string) : exn := Exn "JSONDecodeError" msg.
Definition TypeError (msg : string) : exn := Exn "TypeError" msg.
Definition KeyError (key : string) : exn := Exn "KeyError" key.
Definition AttributeError (msg : string) : exn := Exn "AttributeError" msg.

(** [except json.decoder.JSONDecodeError] *)
Definition is_JSONDecodeError (e : exn) : bool :=
  String.eqb (exn_class e) "JSONDecodeError".

(** [d[key]] for a string key. *)
Fixpoint dict_get (d : list (string * json)) (key : string) : option json :=
  match d with
  | [] => None
  | (k, v) :: d' => if String.eqb k key then Some v else dict_get d' key
  end.

Definition getitem (j : json) (key : string) : outcome json :=
  match j with
  | JDict d =>
      match dict_get d key with
      | Some v => Returned v
      | None => Raised (KeyError key)
      end
  | JList _ => Raised (TypeError "list indices must be integers or slices, not str")
  | JStr _ => Raised (TypeError "string indices must be integers")
  | _ => Raised (TypeError "object is not subscriptable")
  end.

(** [s.replace(old, new)] for one-character [old] and [new]. *)
Fixpoint replace (old new : ascii) (s : string) : string :=
  match s with
  | EmptyString => EmptyString
  | String c s' =>
      String (if Ascii.eqb c old then new else c) (replace old new s')
  end.

(** [s.lower()].  Only the letters A to Z have a lower-case image among the
    characters t, e, s, so the ASCII table decides [s.lower() == 'test']. *)
Definition lower_char (c : ascii) : ascii :=
  let n := N_of_ascii c in
  if (65 <=? n)%N && (n <=? 90)%N then ascii_of_N (n + 32) else c.

Fixpoint lower (s : string) : string :=
  match s with
  | EmptyString => EmptyString
  | String c s' => String (lower_char c) (lower s')
  end.

Definition squote : ascii := "'"%char.
Definition dquote : ascii := "034"%char.

(** ** The names the script imports from [biomedgraph] *)

Inductive Datasource : Set :=
| NcbiGene | BigWordList | Ensembl | Refseq | Uniprot
| Gtex | Reactome | NcbiTaxonomy | GeneOntology.

Inductive ParserClass : Set :=
| NcbiGeneParser | BigWordListParser | EnsemblEntityParser
| EnsemblMappingParser | RefseqEntityParser | RefseqCodesParser
| UniprotKnowledgebaseParser | GeneOntologyAssociationParser
| GtexMetadataParser | GtexDataParser | ReactomePathwayParser
| ReactomeMappingParser.

#[global] Instance Datasource_eq_dec : EqDecision Datasource.
Proof. solve_decision. Defined.

#[global] Instance ParserClass_eq_dec : EqDecision ParserClass.
Proof. solve_decision. Defined.

(** [parser.__class__.__name__] *)
Definition class_name_of (k : ParserClass) : string :=
  match k with
  | NcbiGeneParser => "NcbiGeneParser"
  | BigWordListParser => "BigWordListParser"
  | EnsemblEntityParser => "EnsemblEntityParser"
  | EnsemblMappingParser => "EnsemblMappingParser"
  | RefseqEntityParser => "RefseqEntityParser"
  | RefseqCodesParser => "RefseqCodesParser"
  | UniprotKnowledgebaseParser => "UniprotKnowledgebaseParser"
  | GeneOntologyAssociationParser => "GeneOntologyAssociationParser"
  | GtexMetadataParser => "GtexMetadataParser"
  | GtexDataParser => "GtexDataParser"
  | ReactomePathwayParser => "ReactomePathwayParser"
  | ReactomeMappingParser => "ReactomeMappingParser"
  end.

(** A datasource object: its class and the directory it was built on. *)
Record DsObj := { ds_class : Datasource; ds_root : string }.

(** A parser reference: the address of a parser object on the heap. *)
Definition ref := nat.

(** The Container of a parser: [container.nodesets] and
    [container.relationshipsets]. *)
Record Container (N R : Type) := {
  nodesets : list N;
  relationshipsets : list R;
}.
Arguments nodesets {N R} _.
Arguments relationshipsets {N R} _.

(** A parser object: the attributes the script reads and writes. *)
Record Parser (I N R : Type) := {
  parser_class : ParserClass;
  datasource_instances : list I;
  taxid : option string;
  container : Container N R;
}.
Arguments parser_class {I N R} _.
Arguments datasource_instances {I N R} _.
Arguments taxid {I N R} _.
Arguments container {I N R} _.

(** ** The external collaborators

    Everything the script calls and does not define: the graph client, the
    datasource adapters, the parsers, the index and merge methods of the
    NodeSet and RelationshipSet objects, and the JSON decoder.  A call acts
    on the outside world (graph store, download directory, network) and
    returns or raises. *)
Class Collaborators := {
  World : Type;
  Graph : Type;
  Instance : Type;
  Version : Type;
  NodeSet : Type;
  RelationshipSet : Type;
  (** [not x] is [negb (truthy x)] *)
  truthy : Instance -> bool;
  (** [json.loads] on a [str]: the document, or the exception raised, a
      JSONDecodeError for a malformed document, and others besides (a
      RecursionError for a document nested too deep, a ValueError for an
      integer of too many digits) *)
  ext_json_decode : string -> outcome json;
  (** [py2neo.Graph(host=, user=, password=, secure=, verify=False)] *)
  ext_Graph : json -> json -> json -> json -> World -> World * outcome Graph;
  (** [Cls(ROOT_DIR)] for a datasource class *)
  ext_datasource : Datasource -> string -> World -> World * outcome unit;
  ext_latest_local_instance : DsObj -> World -> World * outcome Instance;
  ext_latest_remote_version : DsObj -> World -> World * outcome Version;
  (** [download(version, taxids=...)], both arguments optional *)
  ext_download : DsObj -> option Version -> option (list string) ->
             World -> World * outcome unit;
  (** [Cls(ROOT_DIR)] for a parser class: the new object *)
  ext_parser : ParserClass -> string ->
                World -> World * outcome (Parser Instance NodeSet RelationshipSet);
  (** [parser.run_with_mounted_arguments()]: acts on the world and on the
      parser object itself *)
  ext_run_with_mounted_arguments :
    Parser Instance NodeSet RelationshipSet ->
    World -> World * Parser Instance NodeSet RelationshipSet * outcome unit;
  ext_relationshipset_create_index : RelationshipSet -> Graph -> World -> World * outcome unit;
  ext_nodeset_create_index : NodeSet -> Graph -> World -> World * outcome unit;
  ext_nodeset_merge : NodeSet -> Graph -> World -> World * outcome unit;
  ext_relationshipset_merge : RelationshipSet -> Graph -> World -> World * outcome unit;
}.

Section Script.
Context `{Collaborators}.

Local Abbreviation ParserObj := (Parser Instance NodeSet RelationshipSet).

(** What [log.info] is given. *)
Inductive logmsg : Type :=
| LStr (s : string)
| LNone
| LJson (j : json)
| LNodeSets (l : list NodeSet)
| LRelationshipSets (l : list RelationshipSet).

(** One event per call that leaves the script, with its arguments and its
    outcome.  The script is sequential: a call has completed when its event
    is in the trace, and the next call begins after it. *)
Inductive event : Type :=
| EvLog (m : logmsg)
| EvGraph (host user password secure : json) (r : outcome Graph)
| EvDatasource (d : Datasource) (root : string) (r : outcome unit)
| EvLatestLocal (d : DsObj) (r : outcome Instance)
| EvLatestRemote (d : DsObj) (r : outcome Version)
| EvDownload (d : DsObj) (version : option Version)
             (taxids : option (list string)) (r : outcome unit)
| EvParser (k : ParserClass) (root : string) (r : outcome ref)
| EvRun (p : ref) (r : outcome unit)
| EvIndexRel (rs : RelationshipSet) (g : Graph) (r : outcome unit)
| EvIndexNode (ns : NodeSet) (g : Graph) (r : outcome unit)
| EvMergeNode (ns : NodeSet) (g : Graph) (r : outcome unit)
| EvMergeRel (rs : RelationshipSet) (g : Graph) (r : outcome unit).

(** The interpreter state: the outside world and the parser objects. *)
Record state := State { world : World; heap : list ParserObj }.

(** A run: the events emitted, the state reached, the result. *)
Record run (A : Type) := Run {
  emitted : list event;
  after : state;
  result : outcome A;
}.
Arguments Run {A} _ _ _.
Arguments emitted {A} _.
Arguments after {A} _.
Arguments result {A} _.

Definition M (A : Type) : Type := state -> run A.

Definition ret {A} (a : A) : M A := fun st => Run [] st (Returned a).

Definition raise {A} (e : exn) : M A := fun st => Run [] st (Raised e).

Definition bind {A B} (m : M A) (k : A -> M B) : M B := fun st =>
  let r := m st in
  match result r with
  | Returned a =>
      let r' := k a (after r) in
      Run (emitted r ++ emitted r') (after r') (result r')
  | Raised e => Run (emitted r) (after r) (Raised e)
  end.

(** [try: m  except <cls>: h] *)
Definition try_except {A} (m : M A) (catches : exn -> bool) (h : M A) : M A :=
  fun st =>
  let r := m st in
  match result r with
  | Returned a => r
  | Raised e =>
      if catches e then
        let r' := h (after r) in
        Run (emitted r ++ emitted r') (after r') (result r')
      else r
  end.

Definition lift {A} (o : outcome A) : M A := fun st => Run [] st o.

(** An external call [op] on the world, recorded by [ev]. *)
Definition extern {A} (ev : outcome A -> event)
    (op : World -> World * outcome A) : M A := fun st =>
  let '(w, r) := op (world st) in
  Run [ev r] (State w (heap st)) r.

Definition log_info (m : logmsg) : M unit := fun st =>
  Run [EvLog m] st (Returned tt).

#[local] Notation "x <- m ;; k" := (bind m (fun x => k))
  (at level 100, m at next level, k at level 200, right associativity).
#[local] Notation "m ;; k" := (bind m (fun _ => k))
  (at level 100, k at level 200, right associativity).

(** [for x in l: body] *)
Fixpoint for_each {A} (l : list A) (body : A -> M unit) : M unit :=
  match l with
  | [] => ret tt
  | x :: l' => body x ;; for_each l' body
  end.

(** [if not c: m] *)
Definition if_not (c : bool) (m : M unit) : M unit :=
  if negb c then m else ret tt.

(** *** Parser objects on the heap *)

(** Reading through a reference.  A Python name always holds a live object;
    the error branch is there for references that were never allocated. *)
Definition deref (p : ref) : M ParserObj := fun st =>
  match heap st !! p with
  | Some o => Run [] st (Returned o)
  | None => Run [] st (Raised (Exn "ReferenceError" "no such object"))
  end.

Definition store (p : ref) (o : ParserObj) : M unit := fun st =>
  Run [] (State (world st) (<[p := o]> (heap st))) (Returned tt).

(** [Cls(ROOT_DIR)] for a parser class; the object is allocated. *)
Definition new_parser (k : ParserClass) (root : string) : M ref := fun st =>
  let '(w, r) := ext_parser k root (world st) in
  match r with
  | Returned o =>
      let p := length (heap st) in
      Run [EvParser k root (Returned p)] (State w (heap st ++ [o])) (Returned p)
  | Raised e => Run [EvParser k root (Raised e)] (State w (heap st)) (Raised e)
  end.

(** [parser.datasource_instances.append(i)] *)
Definition append_datasource_instance (p : ref) (i : Instance) : M unit :=
  o <- deref p ;;
  store p {| parser_class := parser_class o;
             datasource_instances := datasource_instances o ++ [i];
             taxid := taxid o;
             container := container o |}.

(** [parser.taxid = t] *)
Definition set_taxid (p : ref) (t : string) : M unit :=
  o <- deref p ;;
  store p {| parser_class := parser_class o;
             datasource_instances := datasource_instances o;
             taxid := Some t;
             container := container o |}.

(** [parser.run_with_mounted_arguments()] *)
Definition run_with_mounted_arguments (p : ref) : M unit :=
  o <- deref p ;;
  fun st =>
    let '(w, o', r) := ext_run_with_mounted_arguments o (world st) in
    Run [EvRun p r] (State w (<[p := o']> (heap st))) r.

(** *** The other collaborators' methods *)

Definition json_loads (x : option string) : outcome json :=
  match x with
  | None =>
      Raised (TypeError "the JSON object must be str, bytes or bytearray, not NoneType")
  | Some s => ext_json_decode s
  end.

Definition py2neo_Graph (host user password secure : json) : M Graph :=
  extern (EvGraph host user password secure) (ext_Graph host user password secure).

Definition new_datasource (d : Datasource) (root : string) : M DsObj :=
  extern (EvDatasource d root) (ext_datasource d root) ;;
  ret {| ds_class := d; ds_root := root |}.

Definition latest_local_instance (d : DsObj) : M Instance :=
  extern (EvLatestLocal d) (ext_latest_local_instance d).

Definition latest_remote_version (d : DsObj) : M Version :=
  extern (EvLatestRemote d) (ext_latest_remote_version d).

Definition download (d : DsObj) (version : option Version)
    (taxids : option (list string)) : M unit :=
  extern (EvDownload d version taxids) (ext_download d version taxids).

Definition relationshipset_create_index (rs : RelationshipSet) (g : Graph) : M unit :=
  extern (EvIndexRel rs g) (ext_relationshipset_create_index rs g).

Definition nodeset_create_index (ns : NodeSet) (g : Graph) : M unit :=
  extern (EvIndexNode ns g) (ext_nodeset_create_index ns g).

Definition nodeset_merge (ns : NodeSet) (g : Graph) : M unit :=
  extern (EvMergeNode ns g) (ext_nodeset_merge ns g).

Definition relationshipset_merge (rs : RelationshipSet) (g : Graph) : M unit :=
  extern (EvMergeRel rs g) (ext_relationshipset_merge rs g).

(** ** The script *)

(** Module-level names read by the functions. *)
Record globals := {
  ROOT_DIR : string;
  RUN_MODE : string;
  NEO4J_CONFIG_DICT : json;
}.

Definition log_optstr (x : option string) : logmsg :=
  match x with Some s => LStr s | None => LNone end.

(** Lines 15-29: the module body up to the function definitions.
    [environ] is the process environment read by [os.getenv]. *)
Definition module_body (environ : gmap string string) : M globals :=
  let ROOT_DIR := default "/download" (environ !! "ROOT_DIR") in
  let RUN_MODE := default "prod" (environ !! "RUN_MODE") in
  let NEO4J_CONFIG_STRING := environ !! "NEO4J" in
  log_info (log_optstr NEO4J_CONFIG_STRING) ;;
  NEO4J_CONFIG_DICT <-
    try_except (lift (json_loads NEO4J_CONFIG_STRING)) is_JSONDecodeError
      (match NEO4J_CONFIG_STRING with
       | Some s =>
           let NEO4J_CONFIG_STRING := replace squote dquote s in
           log_info (LStr NEO4J_CONFIG_STRING) ;;
           lift (json_loads (Some NEO4J_CONFIG_STRING))
       | None => raise (AttributeError "'NoneType' object has no attribute 'replace'")
       end) ;;
  log_info (LJson NEO4J_CONFIG_DICT) ;;
  ret {| ROOT_DIR := ROOT_DIR; RUN_MODE := RUN_MODE;
         NEO4J_CONFIG_DICT := NEO4J_CONFIG_DICT |}.

(** Lines 31-42. *)
Definition run_parser (parser : ref) : M ref :=
  o <- deref parser ;;
  log_info (LStr ("Run parser " +:+ class_name_of (parser_class o))) ;;
  run_with_mounted_arguments parser ;;
  o <- deref parser ;;
  log_info (LNodeSets (nodesets (container o))) ;;
  o <- deref parser ;;
  log_info (LRelationshipSets (relationshipsets (container o))) ;;
  ret parser.

(** Lines 45-56. *)
Definition create_index (graph : Graph) (parser_list : list ref) : M unit :=
  for_each parser_list (fun parser =>
    o <- deref parser ;;
    for_each (relationshipsets (container o)) (fun relationshipset =>
      relationshipset_create_index relationshipset graph) ;;
    o <- deref parser ;;
    for_each (nodesets (container o)) (fun nodeset =>
      nodeset_create_index nodeset graph)).

(** Lines 59-69. *)
Definition create_nodesets (graph : Graph) (parser_list : list ref) : M unit :=
  for_each parser_list (fun parser =>
    o <- deref parser ;;
    log_info (LStr ("Create nodes for parser " +:+ class_name_of (parser_class o))) ;;
    o <- deref parser ;;
    for_each (nodesets (container o)) (fun nodeset =>
      nodeset_merge nodeset graph)).

(** Lines 72-82. *)
Definition create_relationshipsets (graph : Graph) (parser_list : list ref) : M unit :=
  for_each parser_list (fun parser =>
    o <- deref parser ;;
    log_info (LStr ("Create relationships for parser "
                    +:+ class_name_of (parser_class o))) ;;
    o <- deref parser ;;
    for_each (relationshipsets (container o)) (fun relset =>
      relationshipset_merge relset graph)).

(** The nine datasource objects built by the download block and used again
    by the parser block. *)
Record datasources := {
  ncbigene : DsObj;
  bigwordlist : DsObj;
  ensembl : DsObj;
  refseq : DsObj;
  uniprot : DsObj;
  gtex : DsObj;
  reactome : DsObj;
  ncbi_taxonomy : DsObj;
  geneontology : DsObj;
}.

(** Lines 93-134, the block headed [# Download Datasources]. *)
Definition download_datasources (ROOT_DIR : string) : M datasources :=
  log_info (LStr "Download NCBI Gene") ;;
  ncbigene <- new_datasource NcbiGene ROOT_DIR ;;
  i <- latest_local_instance ncbigene ;;
  if_not (truthy i) (download ncbigene None None) ;;

  log_info (LStr "Download Big Word List") ;;
  bigwordlist <- new_datasource BigWordList ROOT_DIR ;;
  i <- latest_local_instance bigwordlist ;;
  if_not (truthy i) (download bigwordlist None None) ;;

  log_info (LStr "Download ENSEMBL") ;;
  ensembl <- new_datasource Ensembl ROOT_DIR ;;
  i <- latest_local_instance ensembl ;;
  if_not (truthy i)
    (v <- latest_remote_version ensembl ;;
     download ensembl (Some v) (Some ["9606"])) ;;

  log_info (LStr "Download RefSeq") ;;
  refseq <- new_datasource Refseq ROOT_DIR ;;
  i <- latest_local_instance refseq ;;
  if_not (truthy i)
    (v <- latest_remote_version refseq ;;
     download refseq (Some v) None) ;;

  log_info (LStr "Download Uniprot") ;;
  uniprot <- new_datasource Uniprot ROOT_DIR ;;
  i <- latest_local_instance uniprot ;;
  if_not (truthy i) (download uniprot None None) ;;

  gtex <- new_datasource Gtex ROOT_DIR ;;
  i <- latest_local_instance gtex ;;
  if_not (truthy i) (download gtex None None) ;;

  reactome <- new_datasource Reactome ROOT_DIR ;;
  i <- latest_local_instance reactome ;;
  if_not (truthy i) (download reactome None None) ;;

  ncbi_taxonomy <- new_datasource NcbiTaxonomy ROOT_DIR ;;
  i <- latest_local_instance ncbi_taxonomy ;;
  if_not (truthy i) (download ncbi_taxonomy None None) ;;

  geneontology <- new_datasource GeneOntology ROOT_DIR ;;
  i <- latest_local_instance geneontology ;;
  if_not (truthy i) (download geneontology None (Some ["9606"])) ;;

  ret {| ncbigene := ncbigene; bigwordlist := bigwordlist; ensembl := ensembl;
         refseq := refseq; uniprot := uniprot; gtex := gtex;
         reactome := reactome; ncbi_taxonomy := ncbi_taxonomy;
         geneontology := geneontology |}.

(** Lines 136-196, the block headed [# run Parsers]; the value is
    [parsers_done]. *)
Definition run_parsers (ROOT_DIR : string) (ds : datasources) : M (list ref) :=
  let parsers_done := [] in

  ncbigene_parser <- new_parser NcbiGeneParser ROOT_DIR ;;
  i <- latest_local_instance (ncbigene ds) ;;
  append_datasource_instance ncbigene_parser i ;;
  set_taxid ncbigene_parser "9606" ;;
  p <- run_parser ncbigene_parser ;;
  let parsers_done := parsers_done ++ [p] in

  bigwordlist_parser <- new_parser BigWordListParser ROOT_DIR ;;
  i <- latest_local_instance (bigwordlist ds) ;;
  append_datasource_instance bigwordlist_parser i ;;
  p <- run_parser bigwordlist_parser ;;
  let parsers_done := parsers_done ++ [p] in

  ensembl_entity_parser <- new_parser EnsemblEntityParser ROOT_DIR ;;
  i <- latest_local_instance (ensembl ds) ;;
  append_datasource_instance ensembl_entity_parser i ;;
  set_taxid ensembl_entity_parser "9606" ;;
  p <- run_parser ensembl_entity_parser ;;
  let parsers_done := parsers_done ++ [p] in

  ensembl_mapping_parser <- new_parser EnsemblMappingParser ROOT_DIR ;;
  i <- latest_local_instance (ensembl ds) ;;
  append_datasource_instance ensembl_mapping_parser i ;;
  set_taxid ensembl_mapping_parser "9606" ;;
  p <- run_parser ensembl_mapping_parser ;;
  let parsers_done := parsers_done ++ [p] in

  refseq_entity_parser <- new_parser RefseqEntityParser ROOT_DIR ;;
  i <- latest_local_instance (refseq ds) ;;
  append_datasource_instance refseq_entity_parser i ;;
  set_taxid refseq_entity_parser "9606" ;;
  p <- run_parser refseq_entity_parser ;;
  let parsers_done := parsers_done ++ [p] in

  refseq_codes_parser <- new_parser RefseqCodesParser ROOT_DIR ;;
  i <- latest_local_instance (refseq ds) ;;
  append_datasource_instance refseq_codes_parser i ;;
  set_taxid refseq_codes_parser "9606" ;;
  p <- run_parser refseq_codes_parser ;;
  let parsers_done := parsers_done ++ [p] in

  uniprot_knowledgebase_parser <- new_parser UniprotKnowledgebaseParser ROOT_DIR ;;
  i <- latest_local_instance (uniprot ds) ;;
  append_datasource_instance uniprot_knowledgebase_parser i ;;
  set_taxid uniprot_knowledgebase_parser "9606" ;;
  p <- run_parser uniprot_knowledgebase_parser ;;
  let parsers_done := parsers_done ++ [p] in

  go_annotation_parser <- new_parser GeneOntologyAssociationParser ROOT_DIR ;;
  i <- latest_local_instance (geneontology ds) ;;
  append_datasource_instance go_annotation_parser i ;;
  set_taxid go_annotation_parser "9606" ;;
  p <- run_parser go_annotation_parser ;;
  let parsers_done := parsers_done ++ [p] in

  gtex_parser <- new_parser GtexMetadataParser ROOT_DIR ;;
  i <- latest_local_instance (gtex ds) ;;
  append_datasource_instance gtex_parser i ;;
  p <- run_parser gtex_parser ;;
  let parsers_done := parsers_done ++ [p] in

  gtex_data_parser <- new_parser GtexDataParser ROOT_DIR ;;
  i <- latest_local_instance (gtex ds) ;;
  append_datasource_instance gtex_data_parser i ;;
  p <- run_parser gtex_data_parser ;;
  let parsers_done := parsers_done ++ [p] in

  reactome_parser <- new_parser ReactomePathwayParser ROOT_DIR ;;
  i <- latest_local_instance (reactome ds) ;;
  append_datasource_instance reactome_parser i ;;
  i <- latest_local_instance (ncbi_taxonomy ds) ;;
  append_datasource_instance reactome_parser i ;;
  p <- run_parser reactome_parser ;;
  let parsers_done := parsers_done ++ [p] in

  reactome_mapping_parser <- new_parser ReactomeMappingParser ROOT_DIR ;;
  i <- latest_local_instance (reactome ds) ;;
  append_datasource_instance reactome_mapping_parser i ;;
  i <- latest_local_instance (ncbi_taxonomy ds) ;;
  append_datasource_instance reactome_mapping_parser i ;;
  set_taxid reactome_mapping_parser "9606" ;;
  p <- run_parser reactome_mapping_parser ;;
  let parsers_done := parsers_done ++ [p] in

  ret parsers_done.

(** Lines 198-202, the block headed [# Load data]. *)
Definition load_data (graph : Graph) (parsers_done : list ref) : M unit :=
  create_index graph parsers_done ;;
  create_nodesets graph parsers_done ;;
  create_relationshipsets graph parsers_done.

(** Lines 85-202: [if __name__ == '__main__']. *)
Definition main (g : globals) : M unit :=
  if String.eqb (lower (RUN_MODE g)) "test" then
    log_info (LStr "Run tests")
  else
    host <- lift (getitem (NEO4J_CONFIG_DICT g) "host") ;;
    user <- lift (getitem (NEO4J_CONFIG_DICT g) "user") ;;
    password <- lift (getitem (NEO4J_CONFIG_DICT g) "password") ;;
    secure <- lift (getitem (NEO4J_CONFIG_DICT g) "secure") ;;
    graph <- py2neo_Graph host user password secure ;;
    ds <- download_datasources (ROOT_DIR g) ;;
    parsers_done <- run_parsers (ROOT_DIR g) ds ;;
    load_data graph parsers_done.

(** The script run as a program. *)
Definition script (environ : gmap string string) : M unit :=
  g <- module_body environ ;;
  main g.

End Script.

Arguments Run {_ A} _ _ _.
Arguments emitted {_ A} _.
Arguments after {_ A} _.
Arguments result {_ A} _.

Declare Scope script_scope.
Delimit Scope script_scope with script.
Notation "x <- m ;; k" := (bind m (fun x => k))
  (at level 100, m at next level, k at level 200, right associativity)
  : script_scope.
Notation "m ;; k" := (bind m (fun _ => k))
  (at level 100, k at level 200, right associativity) : script_scope.

(** ** What the theorems say about a trace *)

Section TraceProperties.
Context `{Collaborators}.

Local Abbreviation ParserObj := (Parser Instance NodeSet RelationshipSet).

(** The event is a log record. *)
Definition is_log (e : event) : Prop :=
  match e with EvLog _ => True | _ => False end.

(** [each_after R t]: every event of [t] satisfies [R] against the events
    before it.  [safe R known m]: running [m] after a history that
    satisfies the invariant and contains the events [known] keeps the
    invariant. *)
Definition each_after (R : list event -> event -> Prop) (t : list event) : Prop :=
  forall t1 e t2, t = t1 ++ e :: t2 -> R t1 e.

Definition safe (R : list event -> event -> Prop) (known : list event)
    {A} (m : M A) : Prop :=
  forall st h, (forall e, e ∈ known -> e ∈ h) -> each_after R h ->
    each_after R (h ++ emitted (m st)).

(** What C4 asks of a download call: its version argument is a value that
    [latest_remote_version()] returned on the same datasource. *)
Definition passes_remote_version (h : list event) (e : event) : Prop :=
  match e with
  | EvDownload d version _ _ =>
      exists v, version = Some v /\ EvLatestRemote d (Returned v) ∈ h
  | _ => True
  end.

(** What the script does: Ensembl and RefSeq are downloaded at the version
    [latest_remote_version()] returned; the other classes are downloaded
    with no version argument. *)
Definition download_version_rule (h : list event) (e : event) : Prop :=
  match e with
  | EvDownload d version _ _ =>
      match ds_class d with
      | Ensembl | Refseq =>
          exists v, version = Some v /\ EvLatestRemote d (Returned v) ∈ h
      | _ => version = None
      end
  | _ => True
  end.






(** How many events of [t] satisfy [f]. *)
Fixpoint count (f : event -> bool) (t : list event) : nat :=
  match t with
  | [] => 0
  | e :: t' => (if f e then 1 else 0) + count f t'
  end.

(** A run of [m] that returns holds [n] events that satisfy [f]. *)
Definition tally (f : event -> bool) {A} (m : M A) (n : nat) : Prop :=
  forall st a, result (m st) = Returned a -> count f (emitted (m st)) = n.


Definition failure {A} (r : outcome A) : option exn :=
  match r with Returned _ => None | Raised e => Some e end.

(** The exception a call raised, if it raised. *)
Definition raises (e : event) : option exn :=
  match e with
  | EvLog _ => None
  | EvGraph _ _ _ _ r => failure r
  | EvDatasource _ _ r => failure r
  | EvLatestLocal _ r => failure r
  | EvLatestRemote _ r => failure r
  | EvDownload _ _ _ r => failure r
  | EvParser _ _ r => failure r
  | EvRun _ r => failure r
  | EvIndexRel _ _ r => failure r
  | EvIndexNode _ _ r => failure r
  | EvMergeNode _ _ r => failure r
  | EvMergeRel _ _ r => failure r
  end.

(** A call that raises is the last event of the run, and the run raises
    the same exception. *)
Definition fail_fast {A} (m : M A) : Prop :=
  forall st t1 ev t2 x,
    emitted (m st) = t1 ++ ev :: t2 -> raises ev = Some x ->
    t2 = [] /\ result (m st) = Raised x.

(** The classes of store requests. *)
Definition is_index (e : event) : Prop :=
  match e with EvIndexRel _ _ _ | EvIndexNode _ _ _ => True | _ => False end.

Definition is_node_merge (e : event) : Prop :=
  match e with EvMergeNode _ _ _ => True | _ => False end.

Definition is_rel_merge (e : event) : Prop :=
  match e with EvMergeRel _ _ _ => True | _ => False end.

Definition is_merge (e : event) : Prop := is_node_merge e \/ is_rel_merge e.

(** Every RelationshipSet and NodeSet of every parser of the list had its
    index request answered in [t]. *)
Definition all_indexed (parser_list : list ref) (hp : list ParserObj)
    (graph : Graph) (t : list event) : Prop :=
  forall p o, p ∈ parser_list -> hp !! p = Some o ->
    (forall rs, rs ∈ relationshipsets (container o) ->
       EvIndexRel rs graph (Returned tt) ∈ t) /\
    (forall ns, ns ∈ nodesets (container o) ->
       EvIndexNode ns graph (Returned tt) ∈ t).

(** Every NodeSet of every parser of the list had its merge completed in
    [t]. *)
Definition all_nodes_merged (parser_list : list ref) (hp : list ParserObj)
    (graph : Graph) (t : list event) : Prop :=
  forall p o ns, p ∈ parser_list -> hp !! p = Some o ->
    ns ∈ nodesets (container o) -> EvMergeNode ns graph (Returned tt) ∈ t.

(** [m] leaves the parser objects alone. *)
Definition keeps_heap {A} (m : M A) : Prop :=
  forall st, heap (after (m st)) = heap st.

(** What each function of the load block emits. *)
Definition index_or_log (e : event) : Prop := is_index e \/ is_log e.
Definition node_merge_or_log (e : event) : Prop := is_node_merge e \/ is_log e.
Definition rel_merge_or_log (e : event) : Prop := is_rel_merge e \/ is_log e.

(** What the load block sends for one parser object when every call
    returns: its index requests, its node merges, its relationship
    merges. *)
Definition index_requests (graph : Graph) (o : ParserObj) : list event :=
  map (fun rs => EvIndexRel rs graph (Returned tt)) (relationshipsets (container o))
  ++ map (fun ns => EvIndexNode ns graph (Returned tt)) (nodesets (container o)).

Definition node_merges (graph : Graph) (o : ParserObj) : list event :=
  EvLog (LStr ("Create nodes for parser " +:+ class_name_of (parser_class o)))
  :: map (fun ns => EvMergeNode ns graph (Returned tt)) (nodesets (container o)).

Definition relationship_merges (graph : Graph) (o : ParserObj) : list event :=
  EvLog (LStr ("Create relationships for parser "
               +:+ class_name_of (parser_class o)))
  :: map (fun rs => EvMergeRel rs graph (Returned tt))
         (relationshipsets (container o)).

(** The events of [f], parser by parser, in the order of the list. *)
Definition per_parser (f : ParserObj -> list event) (hp : list ParserObj)
    (parser_list : list ref) : list event :=
  flat_map (fun p => match hp !! p with Some o => f o | None => [] end)
           parser_list.

(** The keys [__main__] reads from the configuration, in the order of the
    keyword arguments of [py2neo.Graph]. *)
Definition connection_keys : list string :=
  ["host"; "user"; "password"; "secure"].

(** The character [c] occurs in [s]. *)
Fixpoint occurs (c : ascii) (s : string) : bool :=
  match s with
  | EmptyString => false
  | String c' s' => Ascii.eqb c' c || occurs c s'
  end.

(** The sixteen spellings of [test]: four letters, each in either case. *)
Definition is_test_spelling (s : string) : Prop :=
  exists c1 c2 c3 c4,
    s = String c1 (String c2 (String c3 (String c4 EmptyString))) /\
    (c1 = "t" \/ c1 = "T")%char /\ (c2 = "e" \/ c2 = "E")%char /\
    (c3 = "s" \/ c3 = "S")%char /\ (c4 = "t" \/ c4 = "T")%char.

(** [latest_remote_version()] is asked of Ensembl or RefSeq only, after a
    falsy [latest_local_instance()] of the same datasource. *)
Definition remote_version_rule (h : list event) (e : event) : Prop :=
  match e with
  | EvLatestRemote d _ =>
      (ds_class d = Ensembl \/ ds_class d = Refseq) /\
      exists i, EvLatestLocal d (Returned i) ∈ h /\ truthy i = false
  | _ => True
  end.

(** The event names no directory other than [root]. *)
Definition under_root (root : string) (e : event) : Prop :=
  match e with
  | EvDatasource _ r _ | EvParser _ r _ => r = root
  | EvLatestLocal d _ | EvLatestRemote d _ | EvDownload d _ _ _ =>
      ds_root d = root
  | _ => True
  end.

(** A run of [m] that returns, returns a value that satisfies [P]. *)
Definition returns_only {A} (m : M A) (P : A -> Prop) : Prop :=
  forall st a, result (m st) = Returned a -> P a.

(** The datasource objects of the download block. *)
Definition datasources_at (root : string) : datasources :=
  {| ncbigene := {| ds_class := NcbiGene; ds_root := root |};
     bigwordlist := {| ds_class := BigWordList; ds_root := root |};
     ensembl := {| ds_class := Ensembl; ds_root := root |};
     refseq := {| ds_class := Refseq; ds_root := root |};
     uniprot := {| ds_class := Uniprot; ds_root := root |};
     gtex := {| ds_class := Gtex; ds_root := root |};
     reactome := {| ds_class := Reactome; ds_root := root |};
     ncbi_taxonomy := {| ds_class := NcbiTaxonomy; ds_root := root |};
     geneontology := {| ds_class := GeneOntology; ds_root := root |} |}.

(** The calls of the blocks of [__main__]. *)
Definition is_graph (e : event) : Prop :=
  match e with EvGraph _ _ _ _ _ => True | _ => False end.

Definition is_datasource_step (e : event) : Prop :=
  match e with
  | EvDatasource _ _ _ | EvLatestRemote _ _ | EvDownload _ _ _ _ => True
  | _ => False
  end.

Definition is_latest_local (e : event) : Prop :=
  match e with EvLatestLocal _ _ => True | _ => False end.

Definition is_parser_step (e : event) : Prop :=
  match e with EvParser _ _ _ | EvRun _ _ => True | _ => False end.

Definition is_store (e : event) : Prop := is_index e \/ is_merge e.

(** What each block of [__main__] emits. *)
Definition setup_event (e : event) : Prop := is_graph e \/ is_log e.

Definition download_event (e : event) : Prop :=
  is_datasource_step e \/ is_latest_local e \/ is_log e.

Definition parser_event (e : event) : Prop :=
  is_parser_step e \/ is_latest_local e \/ is_log e.

Definition load_event (e : event) : Prop := is_store e \/ is_log e.

(** A [run_with_mounted_arguments()] call that returned; a parser of class
    [k] that was built. *)
Definition runs_ok (e : event) : bool :=
  match e with EvRun _ (Returned _) => true | _ => false end.

Definition constructs (k : ParserClass) (e : event) : bool :=
  match e with
  | EvParser k' _ (Returned _) => bool_decide (k' = k)
  | _ => false
  end.

(** The twelve parsers were built, one of each class, and run. *)
Definition all_parsers_ran (t : list event) : Prop :=
  count runs_ok t = 12 /\ forall k, count (constructs k) t = 1.

(** [hoare P m Q]: from a state that satisfies [P], a run of [m] that
    returns [a] ends in a state that satisfies [Q a]. *)
Definition hoare (P : state -> Prop) {A} (m : M A) (Q : A -> state -> Prop)
    : Prop :=
  forall st, P st -> forall a, result (m st) = Returned a -> Q a (after (m st)).

(** The heap holds [n] parser objects. *)
Definition sized (n : nat) (st : state) : Prop := length (heap st) = n.

(** [m] allocates no parser object. *)
Definition keeps_size {A} (m : M A) : Prop :=
  forall n, hoare (sized n) m (fun _ => sized n).

(** *** The second reading of the configuration *)

(** [s'] is [s] with every single quote replaced by a double quote, said
    character by character: the two have the same length, and a character
    of [s] is in [s'] at the same place, a double quote in the place of a
    single quote. *)
Definition every_single_quote_replaced (s s' : string) : Prop :=
  String.length s' = String.length s /\
  forall n c, String.get n s = Some c ->
    String.get n s' = Some (if Ascii.eqb c squote then dquote else c).

(** What C8 asks of the configuration code when NEO4J is set: it returns,
    or what it raises is a JSONDecodeError. *)
Definition decodes_or_JSONDecodeError {A} (r : outcome A) : Prop :=
  match r with
  | Returned _ => True
  | Raised e => is_JSONDecodeError e = true
  end.

(** *** What follows a falsy answer *)





End TraceProperties.

(** ** A small concrete world

    One instance of the collaborators, to run the script on: only Uniprot
    has a local instance, the remote version is 7, parsers produce one
    NodeSet and one RelationshipSet each, and the graph store counts its
    round trips and rejects the NodeSet named [Broken]. *)
Module Toy.

Definition config_text : string :=
  "{'host': 'db', 'user': 'neo4j', 'password': 'secret', 'secure': false}".

Definition config_dict : json :=
  JDict [("host", JStr "db"); ("user", JStr "neo4j");
         ("password", JStr "secret"); ("secure", JBool false)].

(** The decoder gives up on a document that opens more than
    [recursion_limit] nested arrays, as the scanner of [json] does when the
    interpreter's recursion limit is reached. *)
Definition recursion_limit : nat := 1000.

Fixpoint opens_more_than (n : nat) (s : string) {struct s} : bool :=
  match s with
  | String "["%char s' =>
      match n with
      | 0 => true
      | S n' => opens_more_than n' s'
      end
  | _ => false
  end.

Definition decode (s : string) : outcome json :=
  if opens_more_than recursion_limit s then
    Raised (Exn "RecursionError"
      "maximum recursion depth exceeded while decoding a JSON array from a unicode string")
  else if String.eqb s (replace squote dquote config_text) then Returned config_dict
  else Raised (JSONDecodeError "Expecting value").

Definition fresh_parser (k : ParserClass) : Parser bool string string :=
  {| parser_class := k; datasource_instances := []; taxid := None;
     container := {| nodesets := []; relationshipsets := [] |} |}.

Definition parsed (o : Parser bool string string) : Parser bool string string :=
  {| parser_class := parser_class o;
     datasource_instances := datasource_instances o;
     taxid := taxid o;
     container := {| nodesets := [class_name_of (parser_class o) +:+ ".nodes"];
                     relationshipsets := [class_name_of (parser_class o) +:+ ".rels"] |} |}.

Definition round_trip (w : nat) : nat * outcome unit := (S w, Returned tt).

Definition merge_nodes (ns : string) (w : nat) : nat * outcome unit :=
  if String.eqb ns "Broken" then (w, Raised (Exn "ClientError" "merge failed"))
  else (S w, Returned tt).

#[local] Instance collaborators : Collaborators := {|
  World := nat;
  Graph := unit;
  Instance := bool;
  Version := nat;
  NodeSet := string;
  RelationshipSet := string;
  truthy := fun i => i;
  ext_json_decode := decode;
  ext_Graph := fun _ _ _ _ w => (w, Returned tt);
  ext_datasource := fun _ _ w => (w, Returned tt);
  ext_latest_local_instance := fun d w =>
    (w, Returned (bool_decide (ds_class d = Uniprot)));
  ext_latest_remote_version := fun _ w => (w, Returned 7);
  ext_download := fun _ _ _ w => (S w, Returned tt);
  ext_parser := fun k _ w => (w, Returned (fresh_parser k));
  ext_run_with_mounted_arguments := fun o w => (w, parsed o, Returned tt);
  ext_relationshipset_create_index := fun _ _ => round_trip;
  ext_nodeset_create_index := fun _ _ => round_trip;
  ext_nodeset_merge := fun ns _ => merge_nodes ns;
  ext_relationshipset_merge := fun _ _ => round_trip;
|}.

Definition environ : gmap string string := {[ "NEO4J" := config_text ]}.

Definition test_environ : gmap string string :=
  {[ "NEO4J" := config_text; "RUN_MODE" := "TeSt" ]}.

Definition start : state := State 0 [].

(** A heap with two parsers already run; the second holds the NodeSet the
    store rejects. *)
Definition gene_parser : Parser bool string string :=
  {| parser_class := NcbiGeneParser; datasource_instances := [true];
     taxid := Some "9606";
     container := {| nodesets := ["Gene"]; relationshipsets := ["Gene-Taxon"] |} |}.

Definition word_parser : Parser bool string string :=
  {| parser_class := BigWordListParser; datasource_instances := [true];
     taxid := None;
     container := {| nodesets := ["Word"]; relationshipsets := [] |} |}.

Definition broken_parser : Parser bool string string :=
  {| parser_class := GtexDataParser; datasource_instances := [true];
     taxid := None;
     container := {| nodesets := ["Broken"; "Tissue"];
                     relationshipsets := ["Gene-Tissue"] |} |}.

Definition loaded : state := State 0 [gene_parser; word_parser].
Definition loaded_broken : state := State 0 [gene_parser; broken_parser].

(** Module-level names for a production run, for a run whose configuration
    lacks the user, and for a run in test mode; an environment whose NEO4J
    is not JSON. *)
Definition prod_globals : globals :=
  {| ROOT_DIR := "/download"; RUN_MODE := "prod";
     NEO4J_CONFIG_DICT := config_dict |}.

Definition no_user_globals : globals :=
  {| ROOT_DIR := "/download"; RUN_MODE := "prod";
     NEO4J_CONFIG_DICT := JDict [("host", JStr "db")] |}.

Definition test_globals : globals :=
  {| ROOT_DIR := "/download"; RUN_MODE := "TeSt";
     NEO4J_CONFIG_DICT := config_dict |}.

Definition bad_environ : gmap string string := {[ "NEO4J" := "not json" ]}.

(** [n] arrays inside one another, [[[...]]]: a valid JSON document. *)
Definition nested (n : N) : string :=
  N.iter n (String "["%char) (N.iter n (String "]"%char) EmptyString).

(** An environment whose NEO4J is valid JSON and too deep for the decoder. *)
Definition deep_environ : gmap string string :=
  {[ "NEO4J" := nested 100000 ]}.

End Toy.

(** ** A world without network

    The world of [Toy], except that [latest_remote_version()] raises: the
    version of a datasource cannot be looked up. *)
Module Offline.

#[local] Instance collaborators : Collaborators := {|
  World := nat;
  Graph := unit;
  Instance := bool;
  Version := nat;
  NodeSet := string;
  RelationshipSet := string;
  truthy := fun i => i;
  ext_json_decode := Toy.decode;
  ext_Graph := fun _ _ _ _ w => (w, Returned tt);
  ext_datasource := fun _ _ w => (w, Returned tt);
  ext_latest_local_instance := fun d w =>
    (w, Returned (bool_decide (ds_class d = Uniprot)));
  ext_latest_remote_version := fun _ w =>
    (w, Raised (Exn "ConnectionError" "Network is unreachable"));
  ext_download := fun _ _ _ w => (S w, Returned tt);
  ext_parser := fun k _ w => (w, Returned (Toy.fresh_parser k));
  ext_run_with_mounted_arguments := fun o w => (w, Toy.parsed o, Returned tt);
  ext_relationshipset_create_index := fun _ _ => Toy.round_trip;
  ext_nodeset_create_index := fun _ _ => Toy.round_trip;
  ext_nodeset_merge := fun ns _ => Toy.merge_nodes ns;
  ext_relationshipset_merge := fun _ _ => Toy.round_trip;
|}.

Definition start : state := State 0 [].

End Offline.

(** ** The NodeSet / RelationshipSet core

    The script imports the NodeSet and RelationshipSet classes and the
    store behind [merge]; their code is not part of the script.  This
    module follows sections 3 and 4 of the specification. *)
Module Core.

(** A field value: string, number, boolean or null. *)
Inductive value : Type :=
| VNull
| VBool (b : bool)
| VNum (n : Z)
| VStr (s : string).

#[global] Instance value_eq_dec : EqDecision value.
Proof. solve_decision. Defined.

(** A Record: field name to value. *)
Abbreviation record := (gmap string value).

Definition is_null (v : value) : bool :=
  match v with VNull => true | _ => false end.

(** Modelled from the spec: the merge-key values of a Record (the class
    that reads them, NodeSet, is missing). *)
Definition key_of (keys : list string) (r : record) : list (option value) :=
  (fun k => r !! k) <$> keys.

(** Modelled from the spec: the combination policy of [deduplicate], whose
    code is missing.  The later record's non-null values overwrite the
    earlier ones; null never overwrites a non-null value. *)
Definition combine (earlier later : record) : record :=
  union_with (fun e l => Some (if is_null l then e else l)) earlier later.

(** Modelled from the spec: one step of [deduplicate], whose code is
    missing.  Records are scanned in insertion order; a record whose
    merge-key values were seen before is combined into the one kept. *)
Fixpoint absorb {K} `{EqDecision K} (key : record -> K)
    (r : record) (seen : list record) : list record :=
  match seen with
  | [] => [r]
  | s :: seen' =>
      if decide (key s = key r) then combine s r :: seen'
      else s :: absorb key r seen'
  end.

(** Modelled from the spec: the scan of [deduplicate], whose code is
    missing, over all the Records. *)
Definition dedup {K} `{EqDecision K} (key : record -> K)
    (rs : list record) : list record :=
  fold_left (fun seen r => absorb key r seen) rs [].

Record NodeSet := {
  label : string;
  merge_keys : list string;
  records : list record;
}.

(** Modelled from the spec: [NodeSet.deduplicate], whose code is missing. *)
Definition deduplicate (ns : NodeSet) : NodeSet :=
  {| label := label ns;
     merge_keys := merge_keys ns;
     records := dedup (key_of (merge_keys ns)) (records ns) |}.

(** An edge Record: start-match, end-match and edge-property fields. *)
Record EdgeRecord := {
  start_match : record;
  end_match : record;
  edge_props : record;
}.

Record RelationshipSet := {
  rel_type : string;
  start_label : string;
  start_keys : list string;
  end_label : string;
  end_keys : list string;
  edge_keys : list string;
  edge_records : list EdgeRecord;
}.

(** Modelled from the spec: the identity of an edge Record in
    [RelationshipSet.deduplicate], whose code is missing. *)
Definition edge_key (rs : RelationshipSet) (e : EdgeRecord)
    : record * record * list (option value) :=
  (start_match e, end_match e, key_of (edge_keys rs) (edge_props e)).

(** Modelled from the spec: the scan of [RelationshipSet.deduplicate],
    whose code is missing: the same policy, keyed on start-match,
    end-match and the edge-key fields. *)
Fixpoint absorb_edge (rs : RelationshipSet) (e : EdgeRecord)
    (seen : list EdgeRecord) : list EdgeRecord :=
  match seen with
  | [] => [e]
  | s :: seen' =>
      if decide (edge_key rs s = edge_key rs e) then
        {| start_match := start_match s; end_match := end_match s;
           edge_props := combine (edge_props s) (edge_props e) |} :: seen'
      else s :: absorb_edge rs e seen'
  end.

(** Modelled from the spec: [RelationshipSet.deduplicate], whose code is
    missing. *)
Definition deduplicate_edges (rs : RelationshipSet) : list EdgeRecord :=
  fold_left (fun seen e => absorb_edge rs e seen) (edge_records rs) [].

Record Container := {
  nodesets : list NodeSet;
  relationshipsets : list RelationshipSet;
}.

(** The graph store: nodes, and edges between node positions. *)
Record Node := { n_label : string; n_props : record }.

Record Edge := {
  e_src : nat;
  e_dst : nat;
  e_type : string;
  e_props : record;
}.

Record Store := { nodes : list Node; edges : list Edge }.

Definition empty_store : Store := {| nodes := []; edges := [] |}.

Inductive StoreError : Set := DanglingReference.

(** Modelled from the spec: the match of a node by (label, merge-key
    values) inside [NodeSet.merge], whose code is missing. *)
Definition node_matches (l : string) (keys : list string) (r : record)
    (n : Node) : bool :=
  bool_decide (n_label n = l /\ key_of keys (n_props n) = key_of keys r).

(** Modelled from the spec: the upsert of one node Record by
    [NodeSet.merge], whose code is missing.  If a node matches, its
    non-key fields are overwritten in full; if none does, the node is
    created with all fields. *)
Definition upsert_node (l : string) (keys : list string) (r : record)
    (ns : list Node) : list Node :=
  let n' := {| n_label := l; n_props := r |} in
  if existsb (node_matches l keys r) ns then
    map (fun n => if node_matches l keys r n then n' else n) ns
  else ns ++ [n'].

(** Modelled from the spec: [NodeSet.merge], whose code is missing: one
    upsert per deduplicated Record, in order.  The chunks of the store
    round trips carry the same upserts in the same order and are not
    modelled. *)
Definition merge_nodeset (st : Store) (ns : NodeSet) : Store :=
  {| nodes := fold_left (fun acc r => upsert_node (label ns) (merge_keys ns) r acc)
                        (records (deduplicate ns)) (nodes st);
     edges := edges st |}.

(** Modelled from the spec: the lookup of the start or end node of an edge
    by its merge keys inside [RelationshipSet.merge], whose code is
    missing: the position of the first node that matches. *)
Fixpoint find_node (l : string) (keys : list string) (r : record)
    (ns : list Node) : option nat :=
  match ns with
  | [] => None
  | n :: ns' =>
      if node_matches l keys r n then Some 0
      else S <$> find_node l keys r ns'
  end.

(** Modelled from the spec: the match of an edge between two nodes by
    relationship type and edge-key fields inside [RelationshipSet.merge],
    whose code is missing. *)
Definition edge_matches (s d : nat) (t : string) (keys : list string)
    (p : record) (e : Edge) : bool :=
  bool_decide (e_src e = s /\ e_dst e = d /\ e_type e = t
               /\ key_of keys (e_props e) = key_of keys p).

(** Modelled from the spec: the match-or-create of an edge between two
    nodes inside [RelationshipSet.merge], whose code is missing. *)
Definition upsert_edge_at (s d : nat) (t : string) (keys : list string)
    (p : record) (es : list Edge) : list Edge :=
  let e' := {| e_src := s; e_dst := d; e_type := t; e_props := p |} in
  if existsb (edge_matches s d t keys p) es then
    map (fun e => if edge_matches s d t keys p e then e' else e) es
  else es ++ [e'].

(** Modelled from the spec: the upsert of one edge Record by
    [RelationshipSet.merge], whose code is missing.  The start and the end
    node are matched by their merge keys; a missing node is a store error;
    the edge is then matched or created by type and edge-key fields and its
    properties are overwritten. *)
Definition upsert_edge (rs : RelationshipSet) (e : EdgeRecord) (st : Store)
    : StoreError + Store :=
  match find_node (start_label rs) (start_keys rs) (start_match e) (nodes st),
        find_node (end_label rs) (end_keys rs) (end_match e) (nodes st) with
  | Some s, Some d =>
      inr {| nodes := nodes st;
             edges := upsert_edge_at s d (rel_type rs) (edge_keys rs)
                                     (edge_props e) (edges st) |}
  | _, _ => inl DanglingReference
  end.

(** Modelled from the spec: the loop of [RelationshipSet.merge], whose
    code is missing; a failure aborts the remaining upserts. *)
Fixpoint upsert_edges (rs : RelationshipSet) (es : list EdgeRecord)
    (st : Store) : StoreError + Store :=
  match es with
  | [] => inr st
  | e :: es' =>
      match upsert_edge rs e st with
      | inr st' => upsert_edges rs es' st'
      | inl err => inl err
      end
  end.

(** Modelled from the spec: [RelationshipSet.merge], whose code is
    missing. *)
Definition merge_relationshipset (rs : RelationshipSet) (st : Store)
    : StoreError + Store :=
  upsert_edges rs (deduplicate_edges rs) st.

(** Modelled from the spec: the relationship merges of a Container, in
    order, whose code is missing. *)
Fixpoint merge_relationshipsets (l : list RelationshipSet) (st : Store)
    : StoreError + Store :=
  match l with
  | [] => inr st
  | rs :: l' =>
      match merge_relationshipset rs st with
      | inr st' => merge_relationshipsets l' st'
      | inl err => inl err
      end
  end.

(** Modelled from the spec: the merge of a Container, whose code is
    missing: nodes first, then relationships. *)
Definition merge (c : Container) (st : Store) : StoreError + Store :=
  merge_relationshipsets (relationshipsets c)
    (fold_left merge_nodeset (nodesets c) st).

(** Labels and relationship types carry one key schema each. *)
Definition consistent (c : Container) : Prop :=
  (forall a b, a ∈ nodesets c -> b ∈ nodesets c ->
     label a = label b -> merge_keys a = merge_keys b) /\
  (forall a b, a ∈ relationshipsets c -> b ∈ relationshipsets c ->
     rel_type a = rel_type b -> edge_keys a = edge_keys b).

(** The Records of the dedup example of section 8. *)
Definition example_records : list record :=
  [ {[ "id" := VNum 1; "name" := VStr "a" ]};
    {[ "id" := VNum 1; "name" := VNull ]};
    {[ "id" := VNum 1; "city" := VStr "X" ]} ].

Definition example_nodeset : NodeSet :=
  {| label := "Example"; merge_keys := ["id"]; records := example_records |}.

(** Two Records of one key that disagree on a field. *)
Definition renamed_nodeset : NodeSet :=
  {| label := "Example"; merge_keys := ["id"];
     records := [ {[ "id" := VNum 1; "name" := VStr "a" ]};
                  {[ "id" := VNum 1; "name" := VStr "b" ]} ] |}.

(** Two NodeSets on one label with different merge keys. *)
Definition clash : Container :=
  {| nodesets :=
       [ {| label := "L"; merge_keys := ["id"];
            records := [ {[ "id" := VNum 1; "x" := VNum 2 ]} ] |};
         {| label := "L"; merge_keys := ["x"];
            records := [ {[ "x" := VNum 2; "id" := VNum 5 ]} ] |} ];
     relationshipsets := [] |}.

(** The end-to-end scenario of section 8. *)
Definition scenario : Container :=
  {| nodesets :=
       [ {| label := "Gene"; merge_keys := ["gene_id"];
            records := [ {[ "gene_id" := VStr "G1"; "symbol" := VStr "TP53" ]};
                         {[ "gene_id" := VStr "G2"; "symbol" := VStr "BRCA1" ]} ] |};
         {| label := "Pathway"; merge_keys := ["pathway_id"];
            records := [ {[ "pathway_id" := VStr "P1"; "name" := VStr "Apoptosis" ]} ] |} ];
     relationshipsets :=
       [ {| rel_type := "PARTICIPATES_IN";
            start_label := "Gene"; start_keys := ["gene_id"];
            end_label := "Pathway"; end_keys := ["pathway_id"];
            edge_keys := [];
            edge_records :=
              [ {| start_match := {[ "gene_id" := VStr "G1" ]};
                   end_match := {[ "pathway_id" := VStr "P1" ]};
                   edge_props := ∅ |} ] |} ] |}.

End Core.

(** ** Match-or-create on a list of items *)

Section Upsert.
Context {X K : Type} (ident : X -> K) (same : X -> X -> bool).

(** Match-or-create of [x] in a list of items. *)
Definition put (l : list X) (x : X) : list X :=
  if existsb (fun y => same y x) l then
    map (fun y => if same y x then x else y) l
  else l ++ [x].

(** What becomes of an item [y] after the upserts [xs], in order. *)
Definition settle (xs : list X) (y : X) : X :=
  fold_left (fun y x => if same y x then x else y) xs y.

Definition present (l : list X) (x : X) : Prop :=
  exists y, y ∈ l /\ ident y = ident x.

End Upsert.

Section CoreProperties.
Import Core.

(** The claim of C2 at a Container: merging it into the empty store and
    then merging it again gives the store of the first merge. *)
Definition idempotent_on (c : Container) : Prop :=
  forall s1, merge c empty_store = inr s1 -> merge c s1 = inr s1.

(** The key schema a label carries in [c], and the edge-key schema of a
    relationship type. *)
Definition schema (c : Container) (l : string) : list string :=
  match List.find (fun ns => String.eqb (label ns) l) (nodesets c) with
  | Some ns => merge_keys ns
  | None => []
  end.

Definition eschema (c : Container) (t : string) : list string :=
  match List.find (fun rs => String.eqb (rel_type rs) t) (relationshipsets c) with
  | Some rs => edge_keys rs
  | None => []
  end.

Definition node_ident (c : Container) (n : Node) :=
  (n_label n, key_of (schema c (n_label n)) (n_props n)).

Definition node_same (c : Container) (y x : Node) : bool :=
  node_matches (n_label x) (schema c (n_label x)) (n_props x) y.

Definition edge_ident (c : Container) (e : Edge) :=
  (e_src e, e_dst e, e_type e, key_of (eschema c (e_type e)) (e_props e)).

Definition edge_same (c : Container) (y x : Edge) : bool :=
  edge_matches (e_src x) (e_dst x) (e_type x) (eschema c (e_type x)) (e_props x) y.

(** The nodes a NodeSet upserts, in order. *)
Definition node_items (ns : NodeSet) : list Node :=
  map (fun r => {| n_label := label ns; n_props := r |}) (records (deduplicate ns)).

(** [f] upserts a list of edges that the nodes of [st] alone decide. *)
Definition replays (c : Container) (f : Store -> StoreError + Store)
    (st : Store) : Prop :=
  exists items, forall st2, nodes st2 = nodes st ->
    f st2 = inr {| nodes := nodes st2;
                   edges := fold_left (put (edge_same c)) items (edges st2) |}.

(** The Records of [ns] that share the merge-key values of [r'], in
    insertion order. *)
Definition group_of (ns : NodeSet) (r' : record) : list record :=
  filter (fun r => key_of (merge_keys ns) r = key_of (merge_keys ns) r')
         (records ns).

(** The Record has null, or nothing, for the field. *)
Definition null_or_absent (f : string) (r : record) : Prop :=
  r !! f = None \/ r !! f = Some VNull.

End CoreProperties.

(** * Properties of the script *)

Section ScriptFacts.
Context `{Collaborators}.
Local Open Scope script_scope.

Local Abbreviation ParserObj := (Parser Instance NodeSet RelationshipSet).

(** *** Running a sequence *)

Lemma bind_emitted {A B} (m : M A) (k : A -> M B) (st : state) :
  emitted (bind m k st) =
    match result (m st) with
    | Returned a => emitted (m st) ++ emitted (k a (after (m st)))
    | Raised _ => emitted (m st)
    end.
Proof. unfold bind. destruct (result (m st)); reflexivity. Qed.

Lemma bind_result {A B} (m : M A) (k : A -> M B) (st : state) :
  result (bind m k st) =
    match result (m st) with
    | Returned a => result (k a (after (m st)))
    | Raised e => Raised e
    end.
Proof. unfold bind. destruct (result (m st)); reflexivity. Qed.

Lemma bind_after {A B} (m : M A) (k : A -> M B) (st : state) :
  after (bind m k st) =
    match result (m st) with
    | Returned a => after (k a (after (m st)))
    | Raised _ => after (m st)
    end.
Proof. unfold bind. destruct (result (m st)); reflexivity. Qed.

Lemma bind_returned {A B} (m : M A) (k : A -> M B) st t st' a :
  m st = Run t st' (Returned a) ->
  bind m k st =
    Run (t ++ emitted (k a st')) (after (k a st')) (result (k a st')).
Proof. intros Hm. unfold bind. rewrite Hm. reflexivity. Qed.

Lemma bind_raised {A B} (m : M A) (k : A -> M B) st t st' e :
  m st = Run t st' (Raised e) -> bind m k st = Run t st' (Raised e).
Proof. intros Hm. unfold bind. rewrite Hm. reflexivity. Qed.

Lemma deref_run p st o :
  heap st !! p = Some o -> deref p st = Run [] st (Returned o).
Proof. intros Ho. unfold deref. rewrite Ho. reflexivity. Qed.

Lemma extern_run {A} (ev : outcome A -> event) op (st : state) :
  extern ev op st =
    Run [ev (op (world st)).2] (State (op (world st)).1 (heap st))
        (op (world st)).2.
Proof. unfold extern. destruct (op (world st)); reflexivity. Qed.

(** Where an event sits when a trace is extended at its end. *)
Lemma snoc_split {E} (h : list E) (e : E) t1 e' t2 :
  h ++ [e] = t1 ++ e' :: t2 ->
  (t1 = h /\ e' = e /\ t2 = []) \/
  (exists t2', t2 = t2' ++ [e] /\ h = t1 ++ e' :: t2').
Proof.
  destruct t2 as [|x t2 _] using rev_ind; intros Heq.
  - apply app_inj_tail in Heq as [-> ->]. auto.
  - right. exists t2.
    rewrite app_comm_cons, app_assoc in Heq.
    apply app_inj_tail in Heq as [-> ->]. auto.
Qed.

Lemma each_after_nil R : each_after R [].
Proof. intros t1 e t2 Heq. destruct t1; discriminate. Qed.

Lemma each_after_snoc R h e :
  each_after R h -> R h e -> each_after R (h ++ [e]).
Proof.
  intros Hh He t1 e' t2 Heq.
  apply snoc_split in Heq as [(-> & -> & _)|(t2' & _ & ->)]; [exact He|].
  eapply Hh. reflexivity.
Qed.

Lemma each_after_Forall (P : event -> Prop) t :
  each_after (fun _ e => P e) t -> Forall P t.
Proof.
  intros Ht. apply Forall_forall. intros e He.
  apply list_elem_of_split in He as (t1 & t2 & ->).
  eapply Ht. reflexivity.
Qed.

Lemma safe_run R {A} (m : M A) (st : state) :
  safe R [] m -> each_after R (emitted (m st)).
Proof.
  intros Hm. apply (Hm st []); [|apply each_after_nil].
  intros e He. inversion He.
Qed.

Lemma safe_ret R known {A} (a : A) : safe R known (ret a).
Proof. intros st h _ Hh. cbn. rewrite app_nil_r. exact Hh. Qed.

Lemma safe_raise R known {A} (e : exn) : safe R known (@raise _ A e).
Proof. intros st h _ Hh. cbn. rewrite app_nil_r. exact Hh. Qed.

Lemma safe_lift R known {A} (o : outcome A) : safe R known (lift o).
Proof. intros st h _ Hh. cbn. rewrite app_nil_r. exact Hh. Qed.

Lemma safe_deref R known p : safe R known (deref p).
Proof.
  intros st h _ Hh. unfold deref.
  destruct (heap st !! p); cbn; rewrite app_nil_r; exact Hh.
Qed.

Lemma safe_store R known p o : safe R known (store p o).
Proof. intros st h _ Hh. cbn. rewrite app_nil_r. exact Hh. Qed.

Lemma safe_bind R known {A B} (m : M A) (k : A -> M B) :
  safe R known m -> (forall a, safe R known (k a)) -> safe R known (bind m k).
Proof.
  intros Hm Hk st h Hknown Hh. rewrite bind_emitted.
  specialize (Hm st h Hknown Hh).
  destruct (result (m st)) as [a|e]; [|exact Hm].
  rewrite app_assoc. apply Hk; [|exact Hm].
  intros e He. apply elem_of_app. left. auto.
Qed.

Lemma safe_weaken R known known' {A} (m : M A) :
  (forall e, e ∈ known' -> e ∈ known) -> safe R known' m -> safe R known m.
Proof. intros Hsub Hm st h Hknown Hh. apply Hm; auto. Qed.

Lemma safe_extern R known {A} (ev : outcome A -> event) op :
  (forall r h, (forall e, e ∈ known -> e ∈ h) -> R h (ev r)) ->
  safe R known (extern ev op).
Proof.
  intros Hev st h Hknown Hh. rewrite extern_run. cbn.
  apply each_after_snoc; auto.
Qed.

(** The value a call returned is the one its event records. *)
Lemma safe_bind_extern R known {A B} (ev : outcome A -> event) op
    (k : A -> M B) :
  (forall r h, (forall e, e ∈ known -> e ∈ h) -> R h (ev r)) ->
  (forall a, safe R (ev (Returned a) :: known) (k a)) ->
  safe R known (bind (extern ev op) k).
Proof.
  intros Hev Hk st h Hknown Hh. rewrite bind_emitted, extern_run. cbn.
  pose proof (each_after_snoc R h _ Hh (Hev (op (world st)).2 h Hknown)) as Hh'.
  destruct (op (world st)).2 as [a|e]; [|exact Hh'].
  rewrite cons_middle, app_assoc. apply Hk; [|exact Hh'].
  intros e He. apply elem_of_app. apply elem_of_cons in He as [->|He].
  - right. apply list_elem_of_singleton. reflexivity.
  - left. auto.
Qed.

Lemma safe_log R known m :
  (forall h, R h (EvLog m)) -> safe R known (log_info m).
Proof. intros Hm st h _ Hh. cbn. apply each_after_snoc; auto. Qed.

Lemma safe_if_not R known (c : bool) (m : M unit) :
  (c = false -> safe R known m) -> safe R known (if_not c m).
Proof.
  intros Hm. unfold if_not. destruct c; cbn; [apply safe_ret|auto].
Qed.

Lemma safe_for_each R known {A} (l : list A) (body : A -> M unit) :
  (forall x, safe R known (body x)) -> safe R known (for_each l body).
Proof.
  intros Hbody. induction l as [|x l IH]; cbn [for_each].
  - apply safe_ret.
  - apply safe_bind; auto.
Qed.

Lemma safe_try_except R known {A} (m : M A) catches (h : M A) :
  safe R known m -> safe R known h -> safe R known (try_except m catches h).
Proof.
  intros Hm Hh st hist Hknown Hhist. unfold try_except.
  specialize (Hm st hist Hknown Hhist).
  destruct (result (m st)) as [a|e]; [exact Hm|].
  destruct (catches e); [|exact Hm]. cbn.
  rewrite app_assoc. apply Hh; [|exact Hm].
  intros e' He'. apply elem_of_app. left. auto.
Qed.

Lemma safe_new_parser R known k root :
  (forall r h, R h (EvParser k root r)) -> safe R known (new_parser k root).
Proof.
  intros Hev st h _ Hh. unfold new_parser.
  destruct (ext_parser k root (world st)) as [w [o|e]]; cbn;
    apply each_after_snoc; auto.
Qed.

Lemma safe_run_with_mounted_arguments R known p :
  (forall r h, R h (EvRun p r)) -> safe R known (run_with_mounted_arguments p).
Proof.
  intros Hev. unfold run_with_mounted_arguments.
  apply safe_bind; [apply safe_deref|]. intros o st h _ Hh.
  destruct (ext_run_with_mounted_arguments o (world st)) as [[w o'] r]; cbn.
  apply each_after_snoc; auto.
Qed.

Lemma safe_bind_new_datasource R known {B} d root (k : DsObj -> M B) :
  (forall r h, R h (EvDatasource d root r)) ->
  safe R known (k {| ds_class := d; ds_root := root |}) ->
  safe R known (bind (new_datasource d root) k).
Proof.
  intros Hev Hk st h Hknown Hh.
  unfold new_datasource. rewrite bind_emitted, bind_result, bind_emitted.
  rewrite bind_after, !extern_run. cbn.
  pose proof (each_after_snoc R h _ Hh (Hev (ext_datasource d root (world st)).2 h))
    as Hh'.
  destruct (ext_datasource d root (world st)).2 as [a|e]; cbn; [|exact Hh'].
  rewrite cons_middle, app_assoc. apply Hk; [|exact Hh'].
  intros e He. apply elem_of_app. left. auto.
Qed.

Ltac known_event :=
  match goal with
  | Hk : forall e, e ∈ _ -> e ∈ ?h |- _ ∈ ?h =>
      apply Hk; repeat first [apply list_elem_of_here | apply list_elem_of_further]
  end.

(** One step through a block of the script; [tac] settles what the
    invariant asks of a call. *)
Ltac safe_step tac :=
  lazymatch goal with
  | |- safe _ _ (bind (extern _ _) _) =>
      apply safe_bind_extern; [intros ? ? ?; tac | intros ?]
  | |- safe _ _ (bind (new_datasource _ _) _) =>
      apply safe_bind_new_datasource; [intros ? ?; tac | ]
  | |- safe _ _ (bind _ _) => apply safe_bind; [ | intros ?]
  | |- safe _ _ (ret _) => apply safe_ret
  | |- safe _ _ (raise _) => apply safe_raise
  | |- safe _ _ (lift _) => apply safe_lift
  | |- safe _ _ (deref _) => apply safe_deref
  | |- safe _ _ (store _ _) => apply safe_store
  | |- safe _ _ (log_info _) => apply safe_log; intros ?; tac
  | |- safe _ _ (extern _ _) => apply safe_extern; intros ? ? ?; tac
  | |- safe _ _ (if_not _ _) => apply safe_if_not; intros ?
  | |- safe _ _ (for_each _ _) => apply safe_for_each; intros ?
  | |- safe _ _ (try_except _ _ _) => apply safe_try_except
  | |- safe _ _ (new_parser _ _) => apply safe_new_parser; intros ? ?; tac
  | |- safe _ _ (run_with_mounted_arguments _) =>
      apply safe_run_with_mounted_arguments; intros ? ?; tac
  | |- safe _ _ (match ?x with _ => _ end) => destruct x
  end.

Ltac safe_block tac :=
  unfold script, module_body, main, load_data, run_parsers,
    download_datasources, create_index, create_nodesets,
    create_relationshipsets, run_parser, append_datasource_instance,
    set_taxid, py2neo_Graph, latest_local_instance, latest_remote_version,
    download, relationshipset_create_index, nodeset_create_index,
    nodeset_merge, relationshipset_merge;
  repeat safe_step tac.

(** C4, as the script has it. Every download call of a run either is one
    of Ensembl or RefSeq and passes a version that an earlier
    [latest_remote_version()] call on the same datasource returned, or is
    one of the seven other classes and passes no version argument. *)
Theorem download_version_argument (environ : gmap string string) (st : state) :
  each_after download_version_rule (emitted (script environ st)).
Proof.
  apply safe_run.
  safe_block ltac:(cbn; first [exact I | reflexivity
                               | eexists; split; [reflexivity | known_event]]).
Qed.

(** *** Counting calls in a run that returns *)

Lemma count_app f t1 t2 : count f (t1 ++ t2) = count f t1 + count f t2.
Proof. induction t1 as [|e t1 IH]; cbn; [reflexivity|]. rewrite IH. lia. Qed.


Lemma tally_ret f {A} (a : A) : tally f (ret a) 0.
Proof. intros st a' _. reflexivity. Qed.

Lemma tally_bind f {A B} (m : M A) (k : A -> M B) n1 n2 :
  tally f m n1 -> (forall a, tally f (k a) n2) -> tally f (bind m k) (n1 + n2).
Proof.
  intros Hm Hk st b. rewrite bind_result, bind_emitted.
  destruct (result (m st)) as [a|e] eqn:Hr; [|discriminate].
  intros Hb. rewrite count_app, (Hm st a Hr), (Hk a _ b Hb). reflexivity.
Qed.

Lemma tally_log f m : f (EvLog m) = false -> tally f (log_info m) 0.
Proof. intros Hf st a _. cbn. rewrite Hf. reflexivity. Qed.

Lemma tally_extern f {A} (ev : outcome A -> event) op (b : bool) :
  (forall a, f (ev (Returned a)) = b) ->
  tally f (extern ev op) (if b then 1 else 0).
Proof.
  intros Hf st a. rewrite extern_run. cbn. intros ->. rewrite Hf.
  destruct b; reflexivity.
Qed.


Lemma new_datasource_run d root st :
  new_datasource d root st =
    Run [EvDatasource d root (ext_datasource d root (world st)).2]
        (State (ext_datasource d root (world st)).1 (heap st))
        (match (ext_datasource d root (world st)).2 with
         | Returned _ => Returned {| ds_class := d; ds_root := root |}
         | Raised e => Raised e
         end).
Proof.
  unfold new_datasource, bind. rewrite extern_run. cbn.
  destruct (ext_datasource d root (world st)).2; reflexivity.
Qed.







Lemma tally_eq f {A} (m : M A) n n' : tally f m n -> n = n' -> tally f m n'.
Proof. intros Hm <-. exact Hm. Qed.




(** *** The configuration code *)

Lemma replace_is_replaced (s : string) :
  every_single_quote_replaced s (replace squote dquote s).
Proof.
  split.
  - induction s as [|c s IH]; cbn; [reflexivity|]. rewrite IH. reflexivity.
  - induction s as [|c s IH]; intros n c' Hget; [discriminate|].
    destruct n as [|n]; cbn in Hget |- *.
    + injection Hget as <-. reflexivity.
    + apply IH. exact Hget.
Qed.

Lemma replaced_unique (s s' : string) :
  every_single_quote_replaced s s' -> s' = replace squote dquote s.
Proof.
  revert s'. induction s as [|c s IH]; intros s' [Hlen Hget].
  - destruct s'; [reflexivity|discriminate].
  - destruct s' as [|c' s']; [discriminate|].
    cbn [replace]. f_equal.
    + specialize (Hget 0 c eq_refl). cbn in Hget. congruence.
    + apply IH. split.
      * cbn in Hlen. congruence.
      * intros n c0 Hn. apply (Hget (S n) c0). exact Hn.
Qed.

(** The three ways through lines 21-27. *)
Lemma module_body_decoded (environ : gmap string string) (st : state) s j :
  environ !! "NEO4J" = Some s ->
  ext_json_decode s = Returned j ->
  module_body environ st =
    Run [EvLog (LStr s); EvLog (LJson j)] st
        (Returned {| ROOT_DIR := default "/download" (environ !! "ROOT_DIR");
                     RUN_MODE := default "prod" (environ !! "RUN_MODE");
                     NEO4J_CONFIG_DICT := j |}).
Proof.
  intros Henv Hdec.
  unfold module_body, bind, try_except, lift, log_info, json_loads.
  rewrite Henv. cbn [emitted after result log_optstr]. rewrite Hdec.
  reflexivity.
Qed.

Lemma module_body_first_error (environ : gmap string string) (st : state) s e :
  environ !! "NEO4J" = Some s ->
  ext_json_decode s = Raised e ->
  is_JSONDecodeError e = false ->
  module_body environ st = Run [EvLog (LStr s)] st (Raised e).
Proof.
  intros Henv Hdec Hcls.
  unfold module_body, bind, try_except, lift, log_info, json_loads.
  rewrite Henv. cbn [emitted after result log_optstr]. rewrite Hdec.
  cbn [emitted after result]. rewrite Hcls. reflexivity.
Qed.

Lemma module_body_retry (environ : gmap string string) (st : state) s e :
  environ !! "NEO4J" = Some s ->
  ext_json_decode s = Raised e ->
  is_JSONDecodeError e = true ->
  module_body environ st =
    match ext_json_decode (replace squote dquote s) with
    | Returned j =>
        Run [EvLog (LStr s); EvLog (LStr (replace squote dquote s));
             EvLog (LJson j)] st
            (Returned {| ROOT_DIR := default "/download" (environ !! "ROOT_DIR");
                         RUN_MODE := default "prod" (environ !! "RUN_MODE");
                         NEO4J_CONFIG_DICT := j |})
    | Raised e2 =>
        Run [EvLog (LStr s); EvLog (LStr (replace squote dquote s))] st
            (Raised e2)
    end.
Proof.
  intros Henv Hdec Hcls.
  unfold module_body, bind, try_except, lift, log_info, json_loads.
  rewrite Henv. cbn [emitted after result log_optstr]. rewrite Hdec.
  cbn [emitted after result]. rewrite Hcls.
  cbn [emitted after result].
  destruct (ext_json_decode (replace squote dquote s)); reflexivity.
Qed.

Lemma module_body_unset (environ : gmap string string) (st : state) :
  environ !! "NEO4J" = None ->
  exists msg,
    module_body environ st = Run [EvLog LNone] st (Raised (TypeError msg)).
Proof.
  intros Henv. unfold module_body. rewrite Henv. cbn. eauto.
Qed.

(** C8. For every value [s] of the NEO4J variable, with [s'] the string [s]
    with each single quote replaced by a double quote: the configuration
    code returns exactly when [json.loads] returns on [s], or raises a
    JSONDecodeError on [s] and returns on [s']; the dictionary is that of
    the attempt that returned.  An exception of the first attempt that is
    no JSONDecodeError is raised by the module at once, with no second
    attempt; after a JSONDecodeError of the first attempt, whatever the
    second attempt raises is what the module raises.  With NEO4J unset the
    module raises a TypeError. *)
Theorem config_parsing_succeeds_iff (environ : gmap string string) (st : state) :
  match environ !! "NEO4J" with
  | Some s =>
      forall s', every_single_quote_replaced s s' ->
      ((exists g, result (module_body environ st) = Returned g) <->
       (exists j, ext_json_decode s = Returned j) \/
       (exists e j, ext_json_decode s = Raised e /\
                    is_JSONDecodeError e = true /\
                    ext_json_decode s' = Returned j)) /\
      (forall j, ext_json_decode s = Returned j ->
         exists g, result (module_body environ st) = Returned g /\
                   NEO4J_CONFIG_DICT g = j) /\
      (forall e, ext_json_decode s = Raised e ->
         is_JSONDecodeError e = false ->
         module_body environ st = Run [EvLog (LStr s)] st (Raised e)) /\
      (forall e, ext_json_decode s = Raised e ->
         is_JSONDecodeError e = true ->
         (forall j, ext_json_decode s' = Returned j ->
            exists g, result (module_body environ st) = Returned g /\
                      NEO4J_CONFIG_DICT g = j) /\
         (forall e2, ext_json_decode s' = Raised e2 ->
            module_body environ st =
              Run [EvLog (LStr s); EvLog (LStr s')] st (Raised e2)))
  | None =>
      exists msg,
        module_body environ st = Run [EvLog LNone] st (Raised (TypeError msg))
  end.
Proof.
  destruct (environ !! "NEO4J") as [s|] eqn:Henv;
    [|apply module_body_unset; exact Henv].
  intros s' Hs'. apply replaced_unique in Hs' as ->.
  destruct (ext_json_decode s) as [j|e] eqn:H1.
  - rewrite (module_body_decoded _ _ _ _ Henv H1). cbn [result].
    split; [|split; [|split]].
    + split; eauto.
    + intros j' [= <-]. eauto.
    + intros; congruence.
    + intros; congruence.
  - destruct (is_JSONDecodeError e) eqn:Hcls.
    + rewrite (module_body_retry _ _ _ _ Henv H1 Hcls).
      destruct (ext_json_decode (replace squote dquote s)) as [j|e2] eqn:H2;
        cbn [result].
      * split; [|split; [|split]].
        -- split; [|eauto]. intros _. right. eauto.
        -- intros; congruence.
        -- intros e' [= <-]. congruence.
        -- intros e' _ _. split; [|intros; congruence].
           intros j' [= <-]. eauto.
      * split; [|split; [|split]].
        -- split.
           ++ intros [g Hg]. discriminate.
           ++ intros [[j Hj]|(e' & j & _ & _ & Hj)]; discriminate.
        -- intros; congruence.
        -- intros e' [= <-]. congruence.
        -- intros e' _ _. split; [intros; congruence|].
           intros e2' [= <-]. reflexivity.
    + rewrite (module_body_first_error _ _ _ _ Henv H1 Hcls). cbn [result].
      split; [|split; [|split]].
      * split.
        -- intros [g Hg]. discriminate.
        -- intros [[j Hj]|(e' & j & [= <-] & Hc & _)]; congruence.
      * intros; congruence.
      * intros e' [= <-] _. reflexivity.
      * intros e' [= <-]. congruence.
Qed.

(** The configuration code only logs, and leaves the state alone. *)
Lemma module_body_run (environ : gmap string string) (st : state) :
  Forall is_log (emitted (module_body environ st)) /\
  after (module_body environ st) = st /\
  forall g, result (module_body environ st) = Returned g ->
    RUN_MODE g = default "prod" (environ !! "RUN_MODE") /\
    ROOT_DIR g = default "/download" (environ !! "ROOT_DIR").
Proof.
  destruct (environ !! "NEO4J") as [s|] eqn:Henv.
  - destruct (ext_json_decode s) as [j|e] eqn:H1.
    + rewrite (module_body_decoded _ _ _ _ Henv H1). cbn [emitted after result].
      split; [repeat constructor|split; [reflexivity|]].
      intros g0 [= <-]. split; reflexivity.
    + destruct (is_JSONDecodeError e) eqn:Hcls.
      * rewrite (module_body_retry _ _ _ _ Henv H1 Hcls).
        destruct (ext_json_decode (replace squote dquote s)) as [j|e2];
          cbn [emitted after result].
        -- split; [repeat constructor|split; [reflexivity|]].
           intros g0 [= <-]. split; reflexivity.
        -- split; [repeat constructor|split; [reflexivity|]].
           intros g0 [=].
      * rewrite (module_body_first_error _ _ _ _ Henv H1 Hcls).
        cbn [emitted after result].
        split; [repeat constructor|split; [reflexivity|]].
        intros g0 [=].
  - destruct (module_body_unset _ st Henv) as [msg ->].
    cbn [emitted after result].
    split; [repeat constructor|split; [reflexivity|]].
    intros g0 [=].
Qed.

(** C9. When RUN_MODE (default [prod]) is [test] after lower-casing, a run
    of the script emits log records only: no graph connection, no
    datasource call, no parser call, no index or merge request; and it
    leaves the world and the parser objects as they were. *)
Theorem test_mode_is_inert (environ : gmap string string) (st : state) :
  lower (default "prod" (environ !! "RUN_MODE")) = "test" ->
  Forall is_log (emitted (script environ st)) /\
  after (script environ st) = st.
Proof.
  intros Hmode.
  destruct (module_body_run environ st) as (Hlog & Hst & Hg).
  unfold script, bind.
  destruct (result (module_body environ st)) as [g|e]; cbn [emitted after].
  - destruct (Hg g eq_refl) as [Hrun _].
    unfold main. rewrite Hrun, Hmode. cbn [String.eqb emitted after log_info].
    split; [|exact Hst].
    apply Forall_app. split; [exact Hlog|]. repeat constructor.
  - auto.
Qed.

(** C7. [run_parser] on a parser object calls [run_with_mounted_arguments]
    on it once and on nothing else; when that call returns, [run_parser]
    returns the reference it was given, the object behind it is the one
    the call left, and its nodesets and relationshipsets are the ones
    logged; when the call raises, so does [run_parser]. *)
Theorem run_parser_returns_its_argument (parser : ref) (st : state)
    (o o' : ParserObj) (w : World) (r : outcome unit) :
  heap st !! parser = Some o ->
  ext_run_with_mounted_arguments o (world st) = (w, o', r) ->
  emitted (run_parser parser st) =
    EvLog (LStr ("Run parser " +:+ class_name_of (parser_class o)))
    :: EvRun parser r
    :: match r with
       | Returned _ =>
           [EvLog (LNodeSets (nodesets (container o')));
            EvLog (LRelationshipSets (relationshipsets (container o')))]
       | Raised _ => []
       end /\
  after (run_parser parser st) = State w (<[parser := o']> (heap st)) /\
  heap (after (run_parser parser st)) !! parser = Some o' /\
  result (run_parser parser st) =
    match r with Returned _ => Returned parser | Raised e => Raised e end.
Proof.
  intros Ho Hrun.
  assert (Hlt : parser < length (heap st)) by (eapply lookup_lt_Some; eauto).
  assert (Ho' : <[parser := o']> (heap st) !! parser = Some o')
    by (apply list_lookup_insert_eq; exact Hlt).
  assert (Hcall : run_with_mounted_arguments parser st =
                  Run [EvRun parser r] (State w (<[parser := o']> (heap st))) r).
  { unfold run_with_mounted_arguments.
    erewrite bind_returned by (apply deref_run; exact Ho).
    rewrite Hrun. destruct r; reflexivity. }
  unfold run_parser.
  erewrite bind_returned by (apply deref_run; exact Ho).
  erewrite bind_returned by reflexivity.
  destruct r as [[]|e].
  - erewrite bind_returned by exact Hcall.
    erewrite bind_returned by (apply deref_run; exact Ho').
    erewrite bind_returned by reflexivity.
    erewrite bind_returned by (apply deref_run; exact Ho').
    erewrite bind_returned by reflexivity.
    cbn [emitted after result ret app heap]. auto.
  - erewrite bind_raised by exact Hcall.
    cbn [emitted after result app heap]. auto.
Qed.






Lemma app_split {E} (l1 l2 t1 : list E) e t2 :
  l1 ++ l2 = t1 ++ e :: t2 ->
  (exists t2', l1 = t1 ++ e :: t2' /\ t2 = t2' ++ l2) \/
  (exists t1', t1 = l1 ++ t1' /\ l2 = t1' ++ e :: t2).
Proof.
  revert t1. induction l1 as [|x l1 IH]; intros t1 Heq; cbn in Heq.
  - right. exists t1. auto.
  - destruct t1 as [|y t1]; cbn in Heq; injection Heq as -> Heq.
    + left. exists l1. subst. auto.
    + apply IH in Heq as [(t2' & -> & ->)|(t1' & -> & ->)].
      * left. exists t2'. auto.
      * right. exists t1'. auto.
Qed.
























(** *** Errors *)

Lemma fail_fast_silent {A} (m : M A) :
  (forall st, emitted (m st) = []) -> fail_fast m.
Proof.
  intros Hm st t1 ev t2 x Heq. rewrite Hm in Heq.
  destruct t1; discriminate.
Qed.

Lemma fail_fast_single {A} (m : M A) :
  (forall st, exists ev, emitted (m st) = [ev] /\
     forall x, raises ev = Some x -> result (m st) = Raised x) ->
  fail_fast m.
Proof.
  intros Hm st t1 ev t2 x Heq Hx. destruct (Hm st) as (ev' & Hev & Hres).
  rewrite Hev in Heq.
  destruct t1 as [|y t1]; [|destruct t1; discriminate].
  injection Heq as <- <-. auto.
Qed.

Lemma fail_fast_bind {A B} (m : M A) (k : A -> M B) :
  fail_fast m -> (forall a, fail_fast (k a)) -> fail_fast (bind m k).
Proof.
  intros Hm Hk st t1 ev t2 x. rewrite bind_emitted, bind_result.
  destruct (result (m st)) as [a|e] eqn:Hr.
  - intros Heq Hx.
    apply app_split in Heq as [(t2' & Heq & ->)|(t1' & -> & Heq)].
    + destruct (Hm st _ _ _ _ Heq Hx) as [_ Hraised]. congruence.
    + eapply Hk; eauto.
  - intros Heq Hx. destruct (Hm st _ _ _ _ Heq Hx) as [-> Hraised].
    split; [reflexivity|congruence].
Qed.

Lemma fail_fast_extern {A} (ev : outcome A -> event) op :
  (forall r, raises (ev r) = failure r) -> fail_fast (extern ev op).
Proof.
  intros Hev. apply fail_fast_single. intros st. rewrite extern_run.
  eexists. split; [reflexivity|]. cbn. intros x. rewrite Hev.
  destruct (op (world st)).2; cbn; congruence.
Qed.

Lemma fail_fast_for_each {A} (l : list A) (body : A -> M unit) :
  (forall x, fail_fast (body x)) -> fail_fast (for_each l body).
Proof.
  intros Hbody. induction l as [|x l IH]; cbn [for_each].
  - apply fail_fast_silent. reflexivity.
  - apply fail_fast_bind; auto.
Qed.

Lemma fail_fast_deref p : fail_fast (deref p).
Proof.
  apply fail_fast_silent. intros st. unfold deref.
  destruct (heap st !! p); reflexivity.
Qed.

Lemma fail_fast_new_parser k root : fail_fast (new_parser k root).
Proof.
  apply fail_fast_single. intros st. unfold new_parser.
  destruct (ext_parser k root (world st)) as [w [o|e]]; cbn;
    eexists; (split; [reflexivity|]); cbn; congruence.
Qed.

Lemma fail_fast_run_with_mounted_arguments p :
  fail_fast (run_with_mounted_arguments p).
Proof.
  unfold run_with_mounted_arguments.
  apply fail_fast_bind; [apply fail_fast_deref|]. intros o.
  apply fail_fast_single. intros st.
  destruct (ext_run_with_mounted_arguments o (world st)) as [[w o'] [u|e]]; cbn;
    eexists; (split; [reflexivity|]); cbn; congruence.
Qed.

Ltac fail_fast_step :=
  lazymatch goal with
  | |- fail_fast (bind _ _) => apply fail_fast_bind; [ | intros ?]
  | |- fail_fast (for_each _ _) => apply fail_fast_for_each; intros ?
  | |- fail_fast (extern _ _) => apply fail_fast_extern; intros ?; reflexivity
  | |- fail_fast (deref _) => apply fail_fast_deref
  | |- fail_fast (new_parser _ _) => apply fail_fast_new_parser
  | |- fail_fast (run_with_mounted_arguments _) =>
      apply fail_fast_run_with_mounted_arguments
  | |- fail_fast (if_not ?c _) => unfold if_not; destruct c; cbn [negb]
  | |- fail_fast (match ?x with _ => _ end) => destruct x
  | |- fail_fast (log_info _) =>
      apply fail_fast_single; intros ?; eexists;
      (split; [reflexivity|]); cbn; congruence
  | |- fail_fast _ => apply fail_fast_silent; reflexivity
  end.

Ltac fail_fast_block :=
  unfold main, load_data, run_parsers, download_datasources, create_index,
    create_nodesets, create_relationshipsets, run_parser,
    append_datasource_instance, set_taxid, py2neo_Graph, new_datasource,
    latest_local_instance, latest_remote_version, download,
    relationshipset_create_index, nodeset_create_index, nodeset_merge,
    relationshipset_merge;
  repeat fail_fast_step.

(** C5. In [create_index], [create_nodesets] and [create_relationshipsets],
    in the load block and in the whole [__main__] block, an index or merge
    call (any call) that raises is the last event of the run, and the run
    ends by raising that same exception: nothing catches it and no later
    index or merge request is issued. *)
Theorem store_errors_abort_the_run (graph : Graph) (parser_list : list ref)
    (g : globals) :
  fail_fast (create_index graph parser_list) /\
  fail_fast (create_nodesets graph parser_list) /\
  fail_fast (create_relationshipsets graph parser_list) /\
  fail_fast (load_data graph parser_list) /\
  fail_fast (main g).
Proof.
  split; [|split; [|split; [|split]]]; fail_fast_block.
Qed.

(** *** The load block *)

Lemma keeps_heap_bind {A B} (m : M A) (k : A -> M B) :
  keeps_heap m -> (forall a, keeps_heap (k a)) -> keeps_heap (bind m k).
Proof.
  intros Hm Hk st. rewrite bind_after.
  destruct (result (m st)); [rewrite Hk|]; apply Hm.
Qed.

Lemma keeps_heap_extern {A} (ev : outcome A -> event) op :
  keeps_heap (extern ev op).
Proof. intros st. rewrite extern_run. reflexivity. Qed.

Lemma keeps_heap_deref p : keeps_heap (deref p).
Proof. intros st. unfold deref. destruct (heap st !! p); reflexivity. Qed.

Lemma keeps_heap_for_each {A} (l : list A) (body : A -> M unit) :
  (forall x, keeps_heap (body x)) -> keeps_heap (for_each l body).
Proof.
  intros Hbody. induction l as [|x l IH]; cbn [for_each].
  - intros st. reflexivity.
  - apply keeps_heap_bind; auto.
Qed.

Ltac keeps_heap_step :=
  lazymatch goal with
  | |- keeps_heap (bind _ _) => apply keeps_heap_bind; [ | intros ?]
  | |- keeps_heap (for_each _ _) => apply keeps_heap_for_each; intros ?
  | |- keeps_heap (extern _ _) => apply keeps_heap_extern
  | |- keeps_heap (deref _) => apply keeps_heap_deref
  | |- keeps_heap _ => intros ?; reflexivity
  end.

Ltac keeps_heap_block :=
  unfold load_data, create_index, create_nodesets, create_relationshipsets,
    relationshipset_create_index, nodeset_create_index, nodeset_merge,
    relationshipset_merge;
  repeat keeps_heap_step.

(** A loop that returns has run its body on every element. *)
Lemma for_each_complete {A} (l : list A) (body : A -> M unit)
    (Inv : state -> Prop) (Q : A -> event -> Prop) :
  (forall x st, Inv st -> Inv (after (body x st))) ->
  (forall x st u, Inv st -> result (body x st) = Returned u ->
     forall e, Q x e -> e ∈ emitted (body x st)) ->
  forall st u, Inv st -> result (for_each l body st) = Returned u ->
    forall x e, x ∈ l -> Q x e -> e ∈ emitted (for_each l body st).
Proof.
  intros Hinv Hbody. induction l as [|y l IH]; intros st u HI Hres x e Hx HQ.
  - inversion Hx.
  - cbn [for_each] in *. rewrite bind_result in Hres. rewrite bind_emitted.
    destruct (result (body y st)) as [[]|err] eqn:Hy; [|discriminate].
    apply elem_of_app. apply elem_of_cons in Hx as [->|Hx].
    + left. eapply Hbody; eauto.
    + right. eapply IH; eauto.
Qed.

(** The loop over one collection of sets: each call that returned is in
    the trace. *)
Lemma for_each_call_complete {S} (l : list S) (ev : S -> outcome unit -> event)
    (op : S -> World -> World * outcome unit) st u :
  result (for_each l (fun x => extern (ev x) (op x)) st) = Returned u ->
  forall x, x ∈ l ->
    ev x (Returned tt) ∈ emitted (for_each l (fun x => extern (ev x) (op x)) st).
Proof.
  intros Hres x Hx.
  eapply (for_each_complete l _ (fun _ => True) (fun x e => e = ev x (Returned tt)));
    eauto.
  intros y st' [] _. rewrite extern_run. cbn. intros -> e ->.
  apply list_elem_of_here.
Qed.

Lemma create_index_complete graph parser_list st u :
  result (create_index graph parser_list st) = Returned u ->
  all_indexed parser_list (heap st) graph
              (emitted (create_index graph parser_list st)).
Proof.
  intros Hres p o Hp Ho.
  assert (Hall : forall e,
    (exists rs, rs ∈ relationshipsets (container o) /\
                e = EvIndexRel rs graph (Returned tt)) \/
    (exists ns, ns ∈ nodesets (container o) /\
                e = EvIndexNode ns graph (Returned tt)) ->
    e ∈ emitted (create_index graph parser_list st)).
  { intros e He. unfold create_index in *.
    eapply (for_each_complete parser_list _ (fun s => heap s = heap st)
              (fun p e => forall o, heap st !! p = Some o ->
                 (exists rs, rs ∈ relationshipsets (container o) /\
                             e = EvIndexRel rs graph (Returned tt)) \/
                 (exists ns, ns ∈ nodesets (container o) /\
                             e = EvIndexNode ns graph (Returned tt))));
      [ | | reflexivity | exact Hres | exact Hp | ].
    - intros x s Hs. rewrite <- Hs.
      generalize s. change (keeps_heap
        (o <- deref x ;;
         for_each (relationshipsets (container o))
           (fun rs => relationshipset_create_index rs graph) ;;
         o <- deref x ;;
         for_each (nodesets (container o))
           (fun ns => nodeset_create_index ns graph))%script).
      keeps_heap_block.
    - intros x s v Hs Hx e' He'.
      unfold deref in Hx |- *. rewrite bind_result in Hx. rewrite bind_emitted.
      destruct (heap s !! x) as [ox|] eqn:Hox; cbn [result emitted after] in *;
        [|discriminate].
      rewrite Hs in Hox. specialize (He' ox Hox). cbn [app].
      rewrite bind_result in Hx. rewrite bind_emitted.
      unfold relationshipset_create_index, nodeset_create_index in *.
      destruct (result (for_each (relationshipsets (container ox)) _ s))
        as [[]|err] eqn:Hrel; [|discriminate].
      apply elem_of_app.
      destruct He' as [(rs & Hrs & ->)|(ns & Hns & ->)].
      + left. eapply (for_each_call_complete _ (fun rs => EvIndexRel rs graph));
          eauto.
      + right. rewrite bind_result in Hx. rewrite bind_emitted.
        set (s' := after _) in *.
        assert (Hs' : heap s' = heap st).
        { subst s'. rewrite <- Hs. generalize s.
          change (keeps_heap (for_each (relationshipsets (container ox))
            (fun rs => extern (EvIndexRel rs graph)
                         (ext_relationshipset_create_index rs graph)))).
          keeps_heap_block. }
        unfold deref in Hx |- *. rewrite Hs', Hox in *.
        cbn [result emitted after app] in *.
        eapply (for_each_call_complete _ (fun ns => EvIndexNode ns graph));
          eauto.
    - intros o' Ho'. rewrite Ho in Ho'. injection Ho' as <-. exact He. }
  split.
  - intros rs Hrs. apply Hall. left. eauto.
  - intros ns Hns. apply Hall. right. eauto.
Qed.

Lemma create_nodesets_complete graph parser_list st u :
  result (create_nodesets graph parser_list st) = Returned u ->
  all_nodes_merged parser_list (heap st) graph
                   (emitted (create_nodesets graph parser_list st)).
Proof.
  intros Hres p o ns Hp Ho Hns. unfold create_nodesets in *.
  eapply (for_each_complete parser_list _ (fun s => heap s = heap st)
            (fun p e => forall o, heap st !! p = Some o ->
               exists ns, ns ∈ nodesets (container o) /\
                          e = EvMergeNode ns graph (Returned tt)));
    [ | | reflexivity | exact Hres | exact Hp | ].
  - intros x s Hs. rewrite <- Hs.
    generalize s. change (keeps_heap
      (o <- deref x ;;
       log_info (LStr ("Create nodes for parser "
                       +:+ class_name_of (parser_class o))) ;;
       o <- deref x ;;
       for_each (nodesets (container o)) (fun ns => nodeset_merge ns graph))%script).
    keeps_heap_block.
  - intros x s v Hs Hx e' He'.
    destruct (heap s !! x) as [ox|] eqn:Hox.
    2:{ rewrite bind_result in Hx. unfold deref in Hx. rewrite Hox in Hx.
        discriminate. }
    erewrite bind_returned in Hx by (apply deref_run; exact Hox).
    erewrite bind_returned in Hx by reflexivity.
    erewrite bind_returned in Hx by (apply deref_run; exact Hox).
    erewrite bind_returned by (apply deref_run; exact Hox).
    erewrite bind_returned by reflexivity.
    erewrite bind_returned by (apply deref_run; exact Hox).
    cbn [result emitted after app] in *.
    rewrite Hs in Hox. destruct (He' ox Hox) as (ns' & Hns' & ->).
    apply list_elem_of_further.
    unfold nodeset_merge in *.
    eapply (for_each_call_complete _ (fun ns => EvMergeNode ns graph)); eauto.
  - intros o' Ho'. rewrite Ho in Ho'. injection Ho' as <-. eauto.
Qed.

Lemma create_index_emits graph parser_list st :
  Forall index_or_log (emitted (create_index graph parser_list st)).
Proof.
  apply each_after_Forall, safe_run.
  safe_block ltac:(cbv [index_or_log is_index is_log]; tauto).
Qed.

Lemma create_nodesets_emits graph parser_list st :
  Forall node_merge_or_log (emitted (create_nodesets graph parser_list st)).
Proof.
  apply each_after_Forall, safe_run.
  safe_block ltac:(cbv [node_merge_or_log is_node_merge is_log]; tauto).
Qed.

Lemma create_relationshipsets_emits graph parser_list st :
  Forall rel_merge_or_log (emitted (create_relationshipsets graph parser_list st)).
Proof.
  apply each_after_Forall, safe_run.
  safe_block ltac:(cbv [rel_merge_or_log is_rel_merge is_log]; tauto).
Qed.

(** The trace of the load block is three segments: index requests, node
    merges, relationship merges.  A later segment is empty unless the
    earlier ones ran to their end. *)
Lemma load_data_phases graph parsers_done st :
  exists ti tn tr,
    emitted (load_data graph parsers_done st) = ti ++ tn ++ tr /\
    Forall index_or_log ti /\
    Forall node_merge_or_log tn /\
    Forall rel_merge_or_log tr /\
    (tn ++ tr <> [] -> all_indexed parsers_done (heap st) graph ti) /\
    (tr <> [] -> all_nodes_merged parsers_done (heap st) graph tn).
Proof.
  unfold load_data. rewrite bind_emitted.
  pose proof (create_index_emits graph parsers_done st) as Hi.
  destruct (result (create_index graph parsers_done st)) as [[]|e] eqn:Hri.
  - set (st1 := after (create_index graph parsers_done st)).
    assert (Hst1 : heap st1 = heap st).
    { subst st1. generalize st.
      change (keeps_heap (create_index graph parsers_done)). keeps_heap_block. }
    rewrite bind_emitted.
    pose proof (create_nodesets_emits graph parsers_done st1) as Hn.
    destruct (result (create_nodesets graph parsers_done st1)) as [[]|e] eqn:Hrn.
    + eexists _, _, _. split; [reflexivity|].
      split; [exact Hi|]. split; [exact Hn|].
      split; [apply create_relationshipsets_emits|].
      split; intros _.
      * eapply create_index_complete; eauto.
      * rewrite <- Hst1. eapply create_nodesets_complete; eauto.
    + exists (emitted (create_index graph parsers_done st)),
             (emitted (create_nodesets graph parsers_done st1)), [].
      rewrite app_nil_r.
      split; [reflexivity|]. split; [exact Hi|]. split; [exact Hn|].
      split; [constructor|]. split.
      * intros _. eapply create_index_complete; eauto.
      * intros Hne. congruence.
  - exists (emitted (create_index graph parsers_done st)), [], [].
    rewrite !app_nil_r.
    split; [reflexivity|]. split; [exact Hi|].
    split; [constructor|]. split; [constructor|].
    split; intros Hne; cbn in Hne; congruence.
Qed.

(** Where an event of a class sits when the first segment has none of that
    class. *)
Lemma skip_segment {E} (P : E -> Prop) (l1 l2 t1 : list E) e t2 :
  l1 ++ l2 = t1 ++ e :: t2 -> Forall P l1 -> ~ P e ->
  exists t1', t1 = l1 ++ t1' /\ l2 = t1' ++ e :: t2.
Proof.
  intros Heq Hl1 He.
  apply app_split in Heq as [(t2' & -> & _)|Hright]; [|exact Hright].
  apply Forall_app in Hl1 as [_ Hl1]. inversion Hl1; subst. contradiction.
Qed.

(** C1. In a run of the load block, when a relationship merge call is
    made, no node merge call follows it, and every NodeSet of every parser
    of the list has had its merge call return before it: all the node
    merges complete before the first relationship merge begins. *)
Theorem node_merges_before_relationship_merges
    (graph : Graph) (parsers_done : list ref) (st : state)
    (t1 t2 : list event) (rs : RelationshipSet) (g : Graph) (r : outcome unit) :
  emitted (load_data graph parsers_done st) = t1 ++ EvMergeRel rs g r :: t2 ->
  Forall (fun e => ~ is_node_merge e) t2 /\
  all_nodes_merged parsers_done (heap st) graph t1.
Proof.
  intros Heq.
  destruct (load_data_phases graph parsers_done st)
    as (ti & tn & tr & Htrace & Hi & Hn & Hr & _ & Hmerged).
  rewrite Htrace in Heq.
  apply (skip_segment index_or_log) in Heq as (t1' & -> & Heq);
    [|exact Hi|cbv [index_or_log is_index is_log]; tauto].
  apply (skip_segment node_merge_or_log) in Heq as (t1'' & -> & Heq);
    [|exact Hn|cbv [node_merge_or_log is_node_merge is_log]; tauto].
  subst tr. split.
  - apply Forall_app in Hr as [_ Hr]. inversion Hr as [|? ? _ Hr2]; subst.
    eapply Forall_impl; [exact Hr2|].
    intros e [He|He] Hm; destruct e; cbn in *; contradiction.
  - intros p o ns Hp Ho Hns.
    apply elem_of_app. right. apply elem_of_app. left.
    eapply Hmerged; eauto. destruct t1''; discriminate.
Qed.

(** C3. In a run of the load block, when a merge call (node or
    relationship) is made, no index request follows it, and every
    RelationshipSet and every NodeSet of every parser of the list has had
    its index request answered before it. *)
Theorem index_requests_before_merges
    (graph : Graph) (parsers_done : list ref) (st : state)
    (t1 t2 : list event) (e : event) :
  emitted (load_data graph parsers_done st) = t1 ++ e :: t2 ->
  is_merge e ->
  Forall (fun e' => ~ is_index e') t2 /\
  all_indexed parsers_done (heap st) graph t1.
Proof.
  intros Heq He.
  destruct (load_data_phases graph parsers_done st)
    as (ti & tn & tr & Htrace & Hi & Hn & Hr & Hindexed & _).
  rewrite Htrace in Heq.
  apply (skip_segment index_or_log) in Heq as (t1' & -> & Heq);
    [|exact Hi|destruct He as [He|He]; destruct e; cbn in He; try contradiction;
               cbv [index_or_log is_index is_log]; tauto].
  assert (Hrest : Forall (fun e' => ~ is_index e') (tn ++ tr)).
  { apply Forall_app. split; (eapply Forall_impl; [eassumption|]).
    - intros e' [He'|He'] Hm; destruct e'; cbn in *; contradiction.
    - intros e' [He'|He'] Hm; destruct e'; cbn in *; contradiction. }
  rewrite Heq in Hrest. apply Forall_app in Hrest as [_ Hrest].
  inversion Hrest as [|? ? _ Hrest2]; subst. split; [exact Hrest2|].
  intros p o Hp Ho.
  destruct (Hindexed ltac:(rewrite Heq; destruct t1'; discriminate) p o Hp Ho)
    as [Hrels Hnodes].
  split; intros x Hx; apply elem_of_app; left; auto.
Qed.

(** *** The load block, call by call *)

(** A loop whose passes keep the parser objects emits the events of its
    passes in order. *)
Lemma for_each_exact {A} (l : list A) (body : A -> M unit)
    (f : A -> list event) (hp : list ParserObj) :
  (forall x st u, heap st = hp -> result (body x st) = Returned u ->
     emitted (body x st) = f x /\ heap (after (body x st)) = hp) ->
  forall st u, heap st = hp -> result (for_each l body st) = Returned u ->
    emitted (for_each l body st) = flat_map f l /\
    heap (after (for_each l body st)) = hp.
Proof.
  intros Hbody. induction l as [|x l IH]; intros st u Hst Hres.
  - split; [reflexivity|exact Hst].
  - cbn [for_each flat_map] in *.
    rewrite bind_result in Hres. rewrite bind_emitted, bind_after.
    destruct (result (body x st)) as [[]|e] eqn:Hx; [|discriminate].
    destruct (Hbody x st tt Hst Hx) as [-> Hhp].
    destruct (IH _ u Hhp Hres) as [-> Hhp']. auto.
Qed.

Lemma calls_exact {S} (l : list S) (ev : S -> outcome unit -> event)
    (op : S -> World -> World * outcome unit) st u :
  result (for_each l (fun x => extern (ev x) (op x)) st) = Returned u ->
  emitted (for_each l (fun x => extern (ev x) (op x)) st) =
    map (fun x => ev x (Returned tt)) l /\
  heap (after (for_each l (fun x => extern (ev x) (op x)) st)) = heap st.
Proof.
  intros Hres.
  assert (Hbody : forall x s v, heap s = heap st ->
            result (extern (ev x) (op x) s) = Returned v ->
            emitted (extern (ev x) (op x) s) = [ev x (Returned tt)] /\
            heap (after (extern (ev x) (op x) s)) = heap st).
  { intros x s [] Hs. rewrite extern_run. cbn. intros ->. auto. }
  destruct (for_each_exact l (fun x => extern (ev x) (op x))
              (fun x => [ev x (Returned tt)]) (heap st) Hbody st u eq_refl Hres)
    as [Hem Hhp].
  split; [|exact Hhp]. rewrite Hem.
  clear. induction l as [|x l IH]; cbn; [reflexivity|]. rewrite IH. reflexivity.
Qed.

Lemma deref_returned p st o :
  result (deref p st) = Returned o -> heap st !! p = Some o.
Proof. unfold deref. destruct (heap st !! p); cbn; congruence. Qed.

Lemma create_index_exact graph parser_list st u :
  result (create_index graph parser_list st) = Returned u ->
  emitted (create_index graph parser_list st) =
    per_parser (index_requests graph) (heap st) parser_list /\
  heap (after (create_index graph parser_list st)) = heap st.
Proof.
  intros Hres. unfold create_index, per_parser in *.
  eapply for_each_exact; [|reflexivity|exact Hres].
  intros p s v Hs Hp.
  destruct (heap s !! p) as [o|] eqn:Ho.
  2:{ rewrite bind_result in Hp. unfold deref in Hp. rewrite Ho in Hp.
      discriminate. }
  rewrite <- Hs, Ho.
  erewrite bind_returned in Hp by (apply deref_run; exact Ho).
  erewrite bind_returned by (apply deref_run; exact Ho).
  cbn [result emitted after app] in *.
  unfold relationshipset_create_index, nodeset_create_index in *.
  rewrite bind_result in Hp. rewrite bind_emitted, bind_after.
  destruct (result (for_each (relationshipsets (container o)) _ s))
    as [[]|err] eqn:Hrel; [|discriminate].
  destruct (calls_exact _ (fun rs => EvIndexRel rs graph) _ _ _ Hrel)
    as [-> Hheap].
  set (s' := after _) in *.
  assert (Ho' : heap s' !! p = Some o) by (rewrite Hheap; exact Ho).
  erewrite bind_returned in Hp by (apply deref_run; exact Ho').
  erewrite bind_returned by (apply deref_run; exact Ho').
  cbn [result emitted after app] in *.
  destruct (calls_exact _ (fun ns => EvIndexNode ns graph) _ _ _ Hp)
    as [-> Hheap'].
  split; [reflexivity|]. rewrite Hheap'. exact Hheap.
Qed.

Lemma create_nodesets_exact graph parser_list st u :
  result (create_nodesets graph parser_list st) = Returned u ->
  emitted (create_nodesets graph parser_list st) =
    per_parser (node_merges graph) (heap st) parser_list /\
  heap (after (create_nodesets graph parser_list st)) = heap st.
Proof.
  intros Hres. unfold create_nodesets, per_parser in *.
  eapply for_each_exact; [|reflexivity|exact Hres].
  intros p s v Hs Hp.
  destruct (heap s !! p) as [o|] eqn:Ho.
  2:{ rewrite bind_result in Hp. unfold deref in Hp. rewrite Ho in Hp.
      discriminate. }
  rewrite <- Hs, Ho.
  erewrite bind_returned in Hp by (apply deref_run; exact Ho).
  erewrite bind_returned in Hp by reflexivity.
  erewrite bind_returned in Hp by (apply deref_run; exact Ho).
  erewrite bind_returned by (apply deref_run; exact Ho).
  erewrite bind_returned by reflexivity.
  erewrite bind_returned by (apply deref_run; exact Ho).
  cbn [result emitted after app] in *.
  unfold nodeset_merge in *.
  destruct (calls_exact _ (fun ns => EvMergeNode ns graph) _ _ _ Hp)
    as [-> Hheap].
  split; [reflexivity|exact Hheap].
Qed.

Lemma create_relationshipsets_exact graph parser_list st u :
  result (create_relationshipsets graph parser_list st) = Returned u ->
  emitted (create_relationshipsets graph parser_list st) =
    per_parser (relationship_merges graph) (heap st) parser_list /\
  heap (after (create_relationshipsets graph parser_list st)) = heap st.
Proof.
  intros Hres. unfold create_relationshipsets, per_parser in *.
  eapply for_each_exact; [|reflexivity|exact Hres].
  intros p s v Hs Hp.
  destruct (heap s !! p) as [o|] eqn:Ho.
  2:{ rewrite bind_result in Hp. unfold deref in Hp. rewrite Ho in Hp.
      discriminate. }
  rewrite <- Hs, Ho.
  erewrite bind_returned in Hp by (apply deref_run; exact Ho).
  erewrite bind_returned in Hp by reflexivity.
  erewrite bind_returned in Hp by (apply deref_run; exact Ho).
  erewrite bind_returned by (apply deref_run; exact Ho).
  erewrite bind_returned by reflexivity.
  erewrite bind_returned by (apply deref_run; exact Ho).
  cbn [result emitted after app] in *.
  unfold relationshipset_merge in *.
  destruct (calls_exact _ (fun rs => EvMergeRel rs graph) _ _ _ Hp)
    as [-> Hheap].
  split; [reflexivity|exact Hheap].
Qed.

(** X1. When the load block returns, its trace is exactly: for each parser
    in list order its relationship index requests then its node index
    requests, in container order; then for each parser one log record and
    its node merges; then for each parser one log record and its
    relationship merges.  A parser listed twice is sent twice. *)
Theorem load_data_requests_in_order (graph : Graph) (parsers_done : list ref)
    (st : state) (u : unit) :
  result (load_data graph parsers_done st) = Returned u ->
  emitted (load_data graph parsers_done st) =
    per_parser (index_requests graph) (heap st) parsers_done
    ++ per_parser (node_merges graph) (heap st) parsers_done
    ++ per_parser (relationship_merges graph) (heap st) parsers_done.
Proof.
  unfold load_data. intros Hres.
  rewrite bind_result in Hres. rewrite bind_emitted.
  destruct (result (create_index graph parsers_done st)) as [[]|e] eqn:Hi;
    [|discriminate].
  destruct (create_index_exact _ _ _ _ Hi) as [-> Hh1].
  rewrite bind_result in Hres. rewrite bind_emitted.
  destruct (result (create_nodesets graph parsers_done _)) as [[]|e] eqn:Hn;
    [|discriminate].
  destruct (create_nodesets_exact _ _ _ _ Hn) as [-> Hh2].
  destruct (create_relationshipsets_exact _ _ _ _ Hres) as [-> _].
  rewrite Hh2, Hh1. reflexivity.
Qed.

Lemma load_data_fail_fast graph parsers_done :
  fail_fast (load_data graph parsers_done).
Proof. fail_fast_block. Qed.

Lemma last_of_segment {E} (l1 l2 t1 : list E) e :
  l1 ++ l2 = t1 ++ [e] -> l2 = [] \/ e ∈ l2.
Proof.
  destruct l2 as [|x l2 _] using rev_ind; [auto|]. intros Heq. right.
  rewrite app_assoc in Heq. apply app_inj_tail in Heq as [_ ->].
  apply elem_of_app. right. apply list_elem_of_here.
Qed.

(** X2. In the load block, a call that raises ends the block with that
    exception; when it is an index request, the run has issued no merge of
    any kind, and when it is a node merge, the run has issued no
    relationship merge. *)
Theorem failed_request_stops_later_phases (graph : Graph)
    (parsers_done : list ref) (st : state) (ev : event) (x : exn) :
  ev ∈ emitted (load_data graph parsers_done st) ->
  raises ev = Some x ->
  result (load_data graph parsers_done st) = Raised x /\
  (is_index ev ->
   Forall (fun e => ~ is_merge e) (emitted (load_data graph parsers_done st))) /\
  (is_node_merge ev ->
   Forall (fun e => ~ is_rel_merge e) (emitted (load_data graph parsers_done st))).
Proof.
  intros Hev Hx. apply list_elem_of_split in Hev as (t1 & t2 & Heq).
  destruct (load_data_fail_fast graph parsers_done st t1 ev t2 x Heq Hx)
    as [-> Hres].
  split; [exact Hres|].
  destruct (load_data_phases graph parsers_done st)
    as (ti & tn & tr & Htrace & Hi & Hn & Hr & _).
  rewrite Htrace in *. clear Htrace.
  assert (Hnot : forall P : event -> Prop, ~ P ev -> forall l,
            Forall P l -> l = [] \/ ev ∈ l -> l = []).
  { intros P HP l Hl [->|Hin]; [reflexivity|].
    rewrite Forall_forall in Hl. destruct (HP (Hl _ Hin)). }
  split.
  - intros Hidx.
    assert (Htail : tn ++ tr = []).
    { apply (Hnot (fun e => node_merge_or_log e \/ rel_merge_or_log e)).
      - destruct ev; cbn in Hidx; try contradiction;
          cbv [node_merge_or_log rel_merge_or_log is_node_merge is_rel_merge
               is_log]; tauto.
      - apply Forall_app. split; (eapply Forall_impl; [eassumption|]); tauto.
      - eapply last_of_segment. exact Heq. }
    rewrite Htail, app_nil_r. eapply Forall_impl; [exact Hi|].
    intros e [He|He] [Hm|Hm]; destruct e; cbn in *; contradiction.
  - intros Hnm.
    assert (Htail : tr = []).
    { apply (Hnot rel_merge_or_log).
      - destruct ev; cbn in Hnm; try contradiction;
          cbv [rel_merge_or_log is_rel_merge is_log]; tauto.
      - exact Hr.
      - eapply (last_of_segment (ti ++ tn)). rewrite <- app_assoc. exact Heq. }
    rewrite Htail, app_nil_r. apply Forall_app. split.
    + eapply Forall_impl; [exact Hi|].
      intros e [He|He] Hm; destruct e; cbn in *; contradiction.
    + eapply Forall_impl; [exact Hn|].
      intros e [He|He] Hm; destruct e; cbn in *; contradiction.
Qed.

(** *** Configuration errors *)

Lemma lift_run {A} (o : outcome A) st : lift o st = Run [] st o.
Proof. reflexivity. Qed.

(** X3. Outside test mode, [__main__] reads the keys host, user, password,
    secure of the configuration in that order before it does anything
    else.  When the reading of one of them raises and the earlier ones
    return, the run ends with that exception without a single call to the
    graph client, a datasource or a parser: a KeyError on the key for a
    JSON object, a TypeError for any other JSON value. *)
Theorem missing_config_key_stops_before_connecting (g : globals) (st : state)
    (n : nat) (key : string) (e : exn) :
  String.eqb (lower (RUN_MODE g)) "test" = false ->
  connection_keys !! n = Some key ->
  (forall k, k ∈ take n connection_keys ->
     exists v, getitem (NEO4J_CONFIG_DICT g) k = Returned v) ->
  getitem (NEO4J_CONFIG_DICT g) key = Raised e ->
  main g st = Run [] st (Raised e) /\
  match NEO4J_CONFIG_DICT g with
  | JDict _ => e = KeyError key
  | _ => exn_class e = "TypeError"
  end.
Proof.
  intros Hmode Hkey Hprev Hraise. split.
  - unfold main. rewrite Hmode.
    assert (Hk : forall k i, connection_keys !! i = Some k -> i < n ->
              exists v, getitem (NEO4J_CONFIG_DICT g) k = Returned v).
    { intros k i Hi Hlt. apply Hprev.
      apply list_elem_of_lookup. exists i. rewrite lookup_take_lt by exact Hlt.
      exact Hi. }
    destruct n as [|[|[|[|n]]]]; cbn in Hkey; try discriminate;
      injection Hkey as <-.
    + erewrite bind_raised by (rewrite lift_run, Hraise; reflexivity).
      reflexivity.
    + destruct (Hk "host" 0 eq_refl ltac:(lia)) as [v0 H0].
      erewrite bind_returned by (rewrite lift_run, H0; reflexivity).
      erewrite bind_raised by (rewrite lift_run, Hraise; reflexivity).
      reflexivity.
    + destruct (Hk "host" 0 eq_refl ltac:(lia)) as [v0 H0].
      destruct (Hk "user" 1 eq_refl ltac:(lia)) as [v1 H1].
      erewrite bind_returned by (rewrite lift_run, H0; reflexivity).
      erewrite bind_returned by (rewrite lift_run, H1; reflexivity).
      erewrite bind_raised by (rewrite lift_run, Hraise; reflexivity).
      reflexivity.
    + destruct (Hk "host" 0 eq_refl ltac:(lia)) as [v0 H0].
      destruct (Hk "user" 1 eq_refl ltac:(lia)) as [v1 H1].
      destruct (Hk "password" 2 eq_refl ltac:(lia)) as [v2 H2].
      erewrite bind_returned by (rewrite lift_run, H0; reflexivity).
      erewrite bind_returned by (rewrite lift_run, H1; reflexivity).
      erewrite bind_returned by (rewrite lift_run, H2; reflexivity).
      erewrite bind_raised by (rewrite lift_run, Hraise; reflexivity).
      reflexivity.
  - unfold getitem in Hraise.
    destruct (NEO4J_CONFIG_DICT g); try (injection Hraise as <-; reflexivity).
    destruct (dict_get d key); [discriminate|].
    injection Hraise as <-. reflexivity.
Qed.

Lemma replace_absent old new s :
  occurs old s = false -> replace old new s = s.
Proof.
  induction s as [|c s IH]; cbn; [reflexivity|].
  intros Hocc. apply orb_false_iff in Hocc as [Hc Hs].
  rewrite Hc, IH by exact Hs. reflexivity.
Qed.

(** X4. When NEO4J holds no single quote and does not decode, the retry
    parses the very same string again: the string is logged twice and the
    module raises the JSONDecodeError of the first attempt. *)
Theorem retry_without_single_quote (environ : gmap string string)
    (st : state) (s m : string) :
  environ !! "NEO4J" = Some s ->
  occurs squote s = false ->
  ext_json_decode s = Raised (JSONDecodeError m) ->
  module_body environ st =
    Run [EvLog (LStr s); EvLog (LStr s)] st (Raised (JSONDecodeError m)).
Proof.
  intros Henv Hocc Hdec.
  rewrite (module_body_retry _ _ _ _ Henv Hdec eq_refl).
  rewrite (replace_absent _ _ _ Hocc), Hdec. reflexivity.
Qed.

(** *** Run modes *)

Lemma lower_char_t c :
  Ascii.eqb (lower_char c) "t" = Ascii.eqb c "t" || Ascii.eqb c "T".
Proof. destruct c as [[] [] [] [] [] [] [] []]; reflexivity. Qed.

Lemma lower_char_e c :
  Ascii.eqb (lower_char c) "e" = Ascii.eqb c "e" || Ascii.eqb c "E".
Proof. destruct c as [[] [] [] [] [] [] [] []]; reflexivity. Qed.

Lemma lower_char_s c :
  Ascii.eqb (lower_char c) "s" = Ascii.eqb c "s" || Ascii.eqb c "S".
Proof. destruct c as [[] [] [] [] [] [] [] []]; reflexivity. Qed.

Lemma either_case (c l u : ascii) :
  Ascii.eqb (lower_char c) l = Ascii.eqb c l || Ascii.eqb c u ->
  lower_char c = l <-> c = l \/ c = u.
Proof.
  intros Heq. rewrite <- !Ascii.eqb_eq, Heq, orb_true_iff. reflexivity.
Qed.

Lemma lower_is_test s : lower s = "test" <-> is_test_spelling s.
Proof.
  split.
  - intros Hs.
    destruct s as [|c1 [|c2 [|c3 [|c4 [|c5 s]]]]]; cbn [lower] in Hs;
      try discriminate.
    injection Hs as H1 H2 H3 H4.
    exists c1, c2, c3, c4. split; [reflexivity|].
    rewrite <- (either_case c1 _ _ (lower_char_t c1)).
    rewrite <- (either_case c2 _ _ (lower_char_e c2)).
    rewrite <- (either_case c3 _ _ (lower_char_s c3)).
    rewrite <- (either_case c4 _ _ (lower_char_t c4)). auto.
  - intros (c1 & c2 & c3 & c4 & -> & H1 & H2 & H3 & H4). cbn [lower].
    apply (either_case c1 _ _ (lower_char_t c1)) in H1.
    apply (either_case c2 _ _ (lower_char_e c2)) in H2.
    apply (either_case c3 _ _ (lower_char_s c3)) in H3.
    apply (either_case c4 _ _ (lower_char_t c4)) in H4.
    rewrite H1, H2, H3, H4. reflexivity.
Qed.

(** X5. [__main__] takes the test branch exactly for the sixteen spellings
    of [test] (each letter in either case) of RUN_MODE.  On such a value it
    logs [Run tests] and returns; on any other value, a configuration with
    the four connection keys makes the graph connection its first call. *)
Theorem test_mode_spellings (g : globals) (st : state) :
  (String.eqb (lower (RUN_MODE g)) "test" = true <-> is_test_spelling (RUN_MODE g)) /\
  (is_test_spelling (RUN_MODE g) ->
   main g st = Run [EvLog (LStr "Run tests")] st (Returned tt)) /\
  (~ is_test_spelling (RUN_MODE g) ->
   forall host user password secure,
     getitem (NEO4J_CONFIG_DICT g) "host" = Returned host ->
     getitem (NEO4J_CONFIG_DICT g) "user" = Returned user ->
     getitem (NEO4J_CONFIG_DICT g) "password" = Returned password ->
     getitem (NEO4J_CONFIG_DICT g) "secure" = Returned secure ->
     exists r t, emitted (main g st) = EvGraph host user password secure r :: t).
Proof.
  assert (Hiff : String.eqb (lower (RUN_MODE g)) "test" = true
                 <-> is_test_spelling (RUN_MODE g)).
  { rewrite String.eqb_eq. apply lower_is_test. }
  split; [exact Hiff|]. split.
  - intros Hs. apply Hiff in Hs. unfold main. rewrite Hs. reflexivity.
  - intros Hs host user password secure Hh Hu Hp Hsec.
    destruct (String.eqb (lower (RUN_MODE g)) "test") eqn:Hmode.
    { destruct Hs. apply Hiff. reflexivity. }
    unfold main. rewrite Hmode.
    erewrite bind_returned by (rewrite lift_run, Hh; reflexivity).
    erewrite bind_returned by (rewrite lift_run, Hu; reflexivity).
    erewrite bind_returned by (rewrite lift_run, Hp; reflexivity).
    erewrite bind_returned by (rewrite lift_run, Hsec; reflexivity).
    cbn [emitted app]. rewrite bind_emitted. unfold py2neo_Graph.
    rewrite extern_run. cbn [emitted result after].
    destruct (ext_Graph host user password secure (world st)).2; cbn; eauto.
Qed.

(** *** Arguments of the calls *)

(** X6. In every run of the script, [latest_remote_version()] is called on
    Ensembl or RefSeq only, and only after [latest_local_instance()] of the
    same datasource returned a falsy value: a datasource with a local
    instance costs no remote version lookup. *)
Theorem remote_version_only_when_missing (environ : gmap string string)
    (st : state) :
  each_after remote_version_rule (emitted (script environ st)).
Proof.
  apply safe_run.
  safe_block ltac:(cbn; first [exact I
    | split; [auto | eexists; split; [known_event | assumption]]]).
Qed.

Lemma returns_only_ret {A} (a : A) (P : A -> Prop) :
  P a -> returns_only (ret a) P.
Proof. intros Ha st a' [= <-]. exact Ha. Qed.

Lemma returns_only_bind {A B} (m : M A) (k : A -> M B) (P : B -> Prop) :
  (forall a, returns_only (k a) P) -> returns_only (bind m k) P.
Proof.
  intros Hk st b. rewrite bind_result.
  destruct (result (m st)) as [a|e]; [|discriminate]. apply Hk.
Qed.

Lemma returns_only_bind_new_datasource {B} d root (k : DsObj -> M B)
    (P : B -> Prop) :
  returns_only (k {| ds_class := d; ds_root := root |}) P ->
  returns_only (bind (new_datasource d root) k) P.
Proof.
  intros Hk st b. rewrite bind_result, new_datasource_run.
  cbn [result after].
  destruct (ext_datasource d root (world st)).2; [|discriminate]. apply Hk.
Qed.

(** The download block returns the nine objects it built. *)
Lemma download_datasources_value root :
  returns_only (download_datasources root) (fun ds => ds = datasources_at root).
Proof.
  unfold download_datasources.
  repeat first [ apply returns_only_bind_new_datasource
               | apply returns_only_bind; intros ?
               | apply returns_only_ret; reflexivity ].
Qed.

Lemma safe_bind_value R known {A B} (m : M A) (k : A -> M B) (P : A -> Prop) :
  safe R known m -> returns_only m P ->
  (forall a, P a -> safe R known (k a)) -> safe R known (bind m k).
Proof.
  intros Hm HP Hk st h Hknown Hh. rewrite bind_emitted.
  specialize (Hm st h Hknown Hh).
  destruct (result (m st)) as [a|e] eqn:Hr; [|exact Hm].
  rewrite app_assoc. apply Hk; [eapply HP; exact Hr| |exact Hm].
  intros e He. apply elem_of_app. left. auto.
Qed.

Lemma main_under_root g st :
  Forall (under_root (ROOT_DIR g)) (emitted (main g st)).
Proof.
  apply each_after_Forall, safe_run. unfold main.
  destruct (String.eqb (lower (RUN_MODE g)) "test").
  { safe_block ltac:(cbn; auto). }
  do 4 (apply safe_bind; [apply safe_lift|intros ?]).
  apply safe_bind; [safe_block ltac:(cbn; auto)|intros graph].
  eapply safe_bind_value;
    [safe_block ltac:(cbn; auto)|apply download_datasources_value|].
  intros ds ->. safe_block ltac:(cbn; auto).
Qed.

(** X7. Every datasource and every parser of a run is built on one
    directory, the value of ROOT_DIR (or [/download] when it is unset), and
    every datasource call of the run is made on an object built on it. *)
Theorem one_root_directory (environ : gmap string string) (st : state) :
  Forall (under_root (default "/download" (environ !! "ROOT_DIR")))
         (emitted (script environ st)).
Proof.
  destruct (module_body_run environ st) as (Hlog & Hst & Hg).
  unfold script. rewrite bind_emitted.
  assert (Hlogs : Forall (under_root (default "/download" (environ !! "ROOT_DIR")))
                         (emitted (module_body environ st))).
  { eapply Forall_impl; [exact Hlog|]. intros e He. destruct e; cbn in *; tauto. }
  destruct (result (module_body environ st)) as [g|e]; [|exact Hlogs].
  destruct (Hg g eq_refl) as [_ Hroot].
  apply Forall_app. split; [exact Hlogs|].
  rewrite <- Hroot. apply main_under_root.
Qed.

(** *** The blocks of [__main__] *)

Lemma tally_silent f {A} (m : M A) :
  (forall st, emitted (m st) = []) -> tally f m 0.
Proof. intros Hm st a _. rewrite Hm. reflexivity. Qed.

Lemma tally_new_parser f k root (b : bool) :
  (forall p, f (EvParser k root (Returned p)) = b) ->
  tally f (new_parser k root) (if b then 1 else 0).
Proof.
  intros Hf st a. unfold new_parser.
  destruct (ext_parser k root (world st)) as [w [o|e]]; cbn; [|discriminate].
  intros _. rewrite Hf. destruct b; reflexivity.
Qed.

Lemma tally_run_with_mounted_arguments f p (b : bool) :
  f (EvRun p (Returned tt)) = b ->
  tally f (run_with_mounted_arguments p) (if b then 1 else 0).
Proof.
  intros Hf st a. unfold run_with_mounted_arguments.
  rewrite bind_result, bind_emitted. unfold deref.
  destruct (heap st !! p) as [o|]; cbn [result emitted after app];
    [|discriminate].
  destruct (ext_run_with_mounted_arguments o (world st)) as [[w o'] [[]|e]];
    cbn; [|discriminate].
  intros _. rewrite Hf. destruct b; reflexivity.
Qed.

Lemma deref_silent p st : emitted (deref p st) = [].
Proof. unfold deref. destruct (heap st !! p); reflexivity. Qed.

Ltac census_step :=
  lazymatch goal with
  | |- tally _ (bind _ _) _ => eapply tally_bind; [|intros ?]
  | |- tally _ (ret _) _ => apply tally_ret
  | |- tally _ (log_info _) _ => apply tally_log; reflexivity
  | |- tally _ (deref _) _ => apply tally_silent; apply deref_silent
  | |- tally _ (store _ _) _ => apply tally_silent; reflexivity
  | |- tally _ (new_parser _ _) _ =>
      eapply tally_new_parser; intros ?; cbn; reflexivity
  | |- tally _ (run_with_mounted_arguments _) _ =>
      eapply tally_run_with_mounted_arguments; cbn; reflexivity
  | |- tally _ (extern _ _) _ => eapply tally_extern; intros ?; cbn; reflexivity
  end.

Ltac census_block :=
  unfold run_parsers, run_parser, append_datasource_instance, set_taxid,
    latest_local_instance;
  eapply tally_eq; [repeat census_step|].

Lemma run_parsers_runs root ds : tally runs_ok (run_parsers root ds) 12.
Proof. census_block. reflexivity. Qed.

Lemma run_parsers_constructs k root ds :
  tally (constructs k) (run_parsers root ds) 1.
Proof. census_block. destruct k; reflexivity. Qed.

Lemma download_datasources_emits root st :
  Forall download_event (emitted (download_datasources root st)).
Proof.
  apply each_after_Forall, safe_run.
  safe_block ltac:(cbv [download_event is_datasource_step is_latest_local is_log];
                   tauto).
Qed.

Lemma run_parsers_emits root ds st :
  Forall parser_event (emitted (run_parsers root ds st)).
Proof.
  apply each_after_Forall, safe_run.
  safe_block ltac:(cbv [parser_event is_parser_step is_latest_local is_log];
                   tauto).
Qed.

Lemma load_data_emits graph parsers_done st :
  Forall load_event (emitted (load_data graph parsers_done st)).
Proof.
  apply each_after_Forall, safe_run.
  safe_block ltac:(cbv [load_event is_store is_index is_merge is_node_merge
                        is_rel_merge is_log]; tauto).
Qed.

Lemma count_none (P : event -> Prop) f t :
  Forall P t -> (forall e, P e -> f e = false) -> count f t = 0.
Proof.
  intros Ht HP. induction Ht as [|e t He _ IH]; cbn; [reflexivity|].
  rewrite (HP e He), IH. reflexivity.
Qed.

(** The trace of [__main__] is four segments: the connection, the download
    block, the parser block, the load block. *)
Lemma main_phases g st :
  exists t0 td tp tl,
    emitted (main g st) = t0 ++ td ++ tp ++ tl /\
    Forall setup_event t0 /\ Forall download_event td /\
    Forall parser_event tp /\ Forall load_event tl /\
    (td ++ tp ++ tl <> [] ->
     exists h u p s r, t0 = [EvGraph h u p s (Returned r)]) /\
    (tl <> [] -> all_parsers_ran tp).
Proof.
  assert (Hstop : forall t0, Forall setup_event t0 ->
    exists t0' td tp tl,
      t0 = t0' ++ td ++ tp ++ tl /\
      Forall setup_event t0' /\ Forall download_event td /\
      Forall parser_event tp /\ Forall load_event tl /\
      (td ++ tp ++ tl <> [] ->
       exists h u p s r, t0' = [EvGraph h u p s (Returned r)]) /\
      (tl <> [] -> all_parsers_ran tp)).
  { intros t0 Ht0. exists t0, [], [], []. rewrite !app_nil_r.
    split; [reflexivity|]. split; [exact Ht0|].
    split; [constructor|]. split; [constructor|]. split; [constructor|].
    split; intros Hne; congruence. }
  unfold main.
  destruct (String.eqb (lower (RUN_MODE g)) "test").
  { apply Hstop. constructor; [right; exact I|constructor]. }
  destruct (getitem (NEO4J_CONFIG_DICT g) "host") as [h|e] eqn:Hh.
  2:{ erewrite bind_raised by (rewrite lift_run; reflexivity).
      apply Hstop. constructor. }
  erewrite bind_returned by (rewrite lift_run; reflexivity).
  destruct (getitem (NEO4J_CONFIG_DICT g) "user") as [u|e] eqn:Hu.
  2:{ erewrite bind_raised by (rewrite lift_run; reflexivity).
      apply Hstop. constructor. }
  erewrite bind_returned by (rewrite lift_run; reflexivity).
  destruct (getitem (NEO4J_CONFIG_DICT g) "password") as [p|e] eqn:Hp.
  2:{ erewrite bind_raised by (rewrite lift_run; reflexivity).
      apply Hstop. constructor. }
  erewrite bind_returned by (rewrite lift_run; reflexivity).
  destruct (getitem (NEO4J_CONFIG_DICT g) "secure") as [s|e] eqn:Hs.
  2:{ erewrite bind_raised by (rewrite lift_run; reflexivity).
      apply Hstop. constructor. }
  erewrite bind_returned by (rewrite lift_run; reflexivity).
  cbn [emitted app]. rewrite bind_emitted. unfold py2neo_Graph.
  rewrite extern_run. cbn [emitted result after].
  destruct (ext_Graph h u p s (world st)).2 as [graph|e].
  2:{ apply Hstop. constructor; [left; exact I|constructor]. }
  set (s0 := State _ _).
  rewrite bind_emitted.
  pose proof (download_datasources_emits (ROOT_DIR g) s0) as Hd.
  destruct (result (download_datasources (ROOT_DIR g) s0)) as [ds|e].
  2:{ exists [EvGraph h u p s (Returned graph)],
             (emitted (download_datasources (ROOT_DIR g) s0)), [], [].
      rewrite !app_nil_r.
      split; [reflexivity|]. split; [constructor; [left; exact I|constructor]|].
      split; [exact Hd|]. split; [constructor|]. split; [constructor|].
      split; [eauto 10|congruence]. }
  set (s1 := after _). rewrite bind_emitted.
  pose proof (run_parsers_emits (ROOT_DIR g) ds s1) as Hp'.
  pose proof (run_parsers_runs (ROOT_DIR g) ds s1) as Hruns.
  pose proof (run_parsers_constructs) as Hcons.
  destruct (result (run_parsers (ROOT_DIR g) ds s1)) as [ps|e] eqn:Hrp.
  2:{ exists [EvGraph h u p s (Returned graph)],
             (emitted (download_datasources (ROOT_DIR g) s0)),
             (emitted (run_parsers (ROOT_DIR g) ds s1)), [].
      rewrite !app_nil_r.
      split; [reflexivity|]. split; [constructor; [left; exact I|constructor]|].
      split; [exact Hd|]. split; [exact Hp'|]. split; [constructor|].
      split; [eauto 10|congruence]. }
  exists [EvGraph h u p s (Returned graph)],
         (emitted (download_datasources (ROOT_DIR g) s0)),
         (emitted (run_parsers (ROOT_DIR g) ds s1)),
         (emitted (load_data graph ps (after (run_parsers (ROOT_DIR g) ds s1)))).
  split; [reflexivity|]. split; [constructor; [left; exact I|constructor]|].
  split; [exact Hd|]. split; [exact Hp'|].
  split; [apply load_data_emits|].
  split; [eauto 10|]. intros _. split.
  - eapply Hruns. reflexivity.
  - intros k. eapply Hcons. exact Hrp.
Qed.

(** X8. In a run of [__main__]: a datasource is built, asked for its remote
    version or downloaded only after the graph connection returned; once a
    parser has been built or run, no connection is made and no datasource
    is built, asked for its remote version or downloaded; once an index or
    merge request has been issued, only index and merge requests (and log
    records) follow. *)
Theorem main_blocks_in_order (g : globals) (st : state)
    (t1 t2 : list event) (e : event) :
  emitted (main g st) = t1 ++ e :: t2 ->
  (is_datasource_step e ->
   exists h u p s r, EvGraph h u p s (Returned r) ∈ t1) /\
  (is_parser_step e ->
   Forall (fun e' => ~ is_graph e' /\ ~ is_datasource_step e') t2) /\
  (is_store e -> Forall load_event t2).
Proof.
  intros Heq.
  destruct (main_phases g st)
    as (t0 & td & tp & tl & Htrace & H0 & Hd & Hp & Hl & Hconn & _).
  rewrite Htrace in Heq. clear Htrace.
  split; [|split].
  - intros He.
    apply (skip_segment setup_event) in Heq as (t1' & -> & Heq);
      [|exact H0|destruct e; cbn in He; try contradiction;
                 cbv [setup_event is_graph is_log]; tauto].
    destruct Hconn as (h & u & p & s & r & ->).
    { rewrite Heq. destruct t1'; discriminate. }
    exists h, u, p, s, r. apply list_elem_of_here.
  - intros He.
    apply (skip_segment setup_event) in Heq as (t1' & -> & Heq);
      [|exact H0|destruct e; cbn in He; try contradiction;
                 cbv [setup_event is_graph is_log]; tauto].
    apply (skip_segment download_event) in Heq as (t1'' & -> & Heq);
      [|exact Hd|destruct e; cbn in He; try contradiction;
                 cbv [download_event is_datasource_step is_latest_local is_log];
                 tauto].
    assert (Hrest : Forall (fun e' => ~ is_graph e' /\ ~ is_datasource_step e')
                           (tp ++ tl)).
    { apply Forall_app. split; (eapply Forall_impl; [eassumption|]).
      - intros e' He'. destruct e'; cbv in He' |- *; tauto.
      - intros e' He'. destruct e'; cbv in He' |- *; tauto. }
    rewrite Heq in Hrest. apply Forall_app in Hrest as [_ Hrest].
    inversion Hrest; assumption.
  - intros He.
    assert (Hstore : forall P : event -> Prop,
              (forall e', P e' -> ~ is_store e') -> ~ P e) by firstorder.
    apply (skip_segment setup_event) in Heq as (t1' & -> & Heq);
      [|exact H0|apply Hstore; intros e' He'; destruct e'; cbv in He' |- *; tauto].
    apply (skip_segment download_event) in Heq as (t1'' & -> & Heq);
      [|exact Hd|apply Hstore; intros e' He'; destruct e'; cbv in He' |- *; tauto].
    apply (skip_segment parser_event) in Heq as (t1''' & -> & Heq);
      [|exact Hp|apply Hstore; intros e' He'; destruct e'; cbv in He' |- *; tauto].
    rewrite Heq in Hl. apply Forall_app in Hl as [_ Hl].
    inversion Hl; assumption.
Qed.

(** X9. In a run of [__main__], an index or merge request is issued only
    after the parser block has run to its end: before the request, each of
    the twelve parser classes was built once and twelve
    [run_with_mounted_arguments()] calls returned. *)
Theorem store_requests_after_all_parsers (g : globals) (st : state)
    (t1 t2 : list event) (e : event) :
  emitted (main g st) = t1 ++ e :: t2 ->
  is_store e ->
  all_parsers_ran t1.
Proof.
  intros Heq He.
  destruct (main_phases g st)
    as (t0 & td & tp & tl & Htrace & H0 & Hd & Hp & Hl & _ & Hran).
  rewrite Htrace in Heq. clear Htrace.
  assert (Hstore : forall P : event -> Prop,
            (forall e', P e' -> ~ is_store e') -> ~ P e) by firstorder.
  apply (skip_segment setup_event) in Heq as (t1' & -> & Heq);
    [|exact H0|apply Hstore; intros e' He'; destruct e'; cbv in He' |- *; tauto].
  apply (skip_segment download_event) in Heq as (t1'' & -> & Heq);
    [|exact Hd|apply Hstore; intros e' He'; destruct e'; cbv in He' |- *; tauto].
  apply (skip_segment parser_event) in Heq as (t1''' & -> & Heq);
    [|exact Hp|apply Hstore; intros e' He'; destruct e'; cbv in He' |- *; tauto].
  destruct Hran as [Hruns Hcons]; [rewrite Heq; destruct t1'''; discriminate|].
  rewrite Heq in Hl. apply Forall_app in Hl as [Hl1 _].
  split.
  - rewrite !count_app, Hruns.
    rewrite (count_none setup_event), (count_none download_event),
      (count_none load_event); auto;
      intros e' He'; destruct e' as [| | | | | | |? []| | | |];
      cbv in He' |- *; tauto.
  - intros k. rewrite !count_app, Hcons.
    rewrite (count_none setup_event), (count_none download_event),
      (count_none load_event); auto;
      intros e' He'; destruct e' as [| | | | | |? ? []| | | | |];
      cbv in He' |- *; tauto.
Qed.

(** *** The references of the parser block *)

Lemma hoare_ret (P : state -> Prop) {A} (a : A) (Q : A -> state -> Prop) :
  (forall st, P st -> Q a st) -> hoare P (ret a) Q.
Proof. intros HQ st HP a' [= <-]. apply HQ. exact HP. Qed.

Lemma hoare_bind (P : state -> Prop) {A B} (m : M A) (k : A -> M B)
    (Q : A -> state -> Prop) (R : B -> state -> Prop) :
  hoare P m Q -> (forall a, hoare (Q a) (k a) R) -> hoare P (bind m k) R.
Proof.
  intros Hm Hk st HP b. rewrite bind_result, bind_after.
  destruct (result (m st)) as [a|e] eqn:Hr; [|discriminate].
  apply Hk. eapply Hm; eauto.
Qed.

Lemma keeps_size_silent {A} (m : M A) :
  (forall st, heap (after (m st)) = heap st) -> keeps_size m.
Proof. intros Hm n st Hn a _. unfold sized. rewrite Hm. exact Hn. Qed.

Lemma keeps_size_bind {A B} (m : M A) (k : A -> M B) :
  keeps_size m -> (forall a, keeps_size (k a)) -> keeps_size (bind m k).
Proof. intros Hm Hk n. eapply hoare_bind; [apply Hm|intros a; apply Hk]. Qed.

Lemma keeps_size_store p o : keeps_size (store p o).
Proof.
  intros n st Hn a _. unfold sized in *. cbn. rewrite length_insert. exact Hn.
Qed.

Lemma keeps_size_run_with_mounted_arguments p :
  keeps_size (run_with_mounted_arguments p).
Proof.
  unfold run_with_mounted_arguments. apply keeps_size_bind.
  - apply keeps_size_silent. apply keeps_heap_deref.
  - intros o n st Hn a _. unfold sized in *.
    destruct (ext_run_with_mounted_arguments o (world st)) as [[w o'] r]; cbn.
    rewrite length_insert. exact Hn.
Qed.

Ltac keeps_size_step :=
  lazymatch goal with
  | |- keeps_size (bind _ _) => apply keeps_size_bind; [|intros ?]
  | |- keeps_size (store _ _) => apply keeps_size_store
  | |- keeps_size (run_with_mounted_arguments _) =>
      apply keeps_size_run_with_mounted_arguments
  | |- keeps_size (deref _) => apply keeps_size_silent; apply keeps_heap_deref
  | |- keeps_size (extern _ _) => apply keeps_size_silent; apply keeps_heap_extern
  | |- keeps_size _ => apply keeps_size_silent; intros ?; reflexivity
  end.

Ltac keeps_size_block :=
  unfold run_parser, append_datasource_instance, set_taxid,
    latest_local_instance;
  repeat keeps_size_step.

Lemma hoare_bind_keep n {A B} (m : M A) (k : A -> M B)
    (Q : B -> state -> Prop) :
  keeps_size m -> (forall a, hoare (sized n) (k a) Q) ->
  hoare (sized n) (bind m k) Q.
Proof. intros Hm Hk. eapply hoare_bind; [apply Hm|exact Hk]. Qed.

(** A new parser object takes the next address. *)
Lemma hoare_bind_new_parser n {B} c root (k : ref -> M B)
    (Q : B -> state -> Prop) :
  hoare (sized (S n)) (k n) Q ->
  hoare (sized n) (bind (new_parser c root) k) Q.
Proof.
  intros Hk st Hn b. rewrite bind_result, bind_after. unfold new_parser.
  destruct (ext_parser c root (world st)) as [w [o|e]]; cbn [result after];
    [|discriminate].
  rewrite Hn. apply Hk. unfold sized. cbn. rewrite length_app. cbn.
  unfold sized in Hn. lia.
Qed.

Lemma run_parser_value p : returns_only (run_parser p) (fun q => q = p).
Proof.
  unfold run_parser.
  repeat first [ apply returns_only_bind; intros ?
               | apply returns_only_ret; reflexivity ].
Qed.

Lemma hoare_bind_run_parser n {B} p (k : ref -> M B) (Q : B -> state -> Prop) :
  hoare (sized n) (k p) Q -> hoare (sized n) (bind (run_parser p) k) Q.
Proof.
  intros Hk st Hn b. rewrite bind_result, bind_after.
  destruct (result (run_parser p st)) as [q|e] eqn:Hr; [|discriminate].
  rewrite (run_parser_value p st q Hr). apply Hk.
  assert (Hkeep : keeps_size (run_parser p)) by keeps_size_block.
  eapply Hkeep; eauto.
Qed.

Lemma run_parsers_allocates n root ds :
  hoare (sized n) (run_parsers root ds)
        (fun ps st => ps = seq n 12 /\ sized (n + 12) st).
Proof.
  unfold run_parsers.
  repeat first
    [ apply hoare_bind_new_parser
    | apply hoare_bind_run_parser
    | apply hoare_bind_keep; [solve [keeps_size_block]|intros ?] ].
  apply hoare_ret. intros st Hst. split; [reflexivity|].
  unfold sized in *. lia.
Qed.

(** X10. When the parser block returns, [parsers_done] lists the twelve
    parser objects the block allocated, in the order of their creation:
    twelve distinct references, none to an object that existed before, each
    to a live object. *)
Theorem parsers_done_are_the_new_parsers (root : string) (ds : datasources)
    (st : state) (parsers_done : list ref) :
  result (run_parsers root ds st) = Returned parsers_done ->
  parsers_done = seq (length (heap st)) 12 /\
  NoDup parsers_done /\
  (forall p, p ∈ parsers_done ->
     length (heap st) <= p /\
     is_Some (heap (after (run_parsers root ds st)) !! p)).
Proof.
  intros Hres.
  destruct (run_parsers_allocates (length (heap st)) root ds st eq_refl _ Hres)
    as [-> Hsize].
  split; [reflexivity|]. split; [apply NoDup_seq|].
  intros p Hp. apply elem_of_seq in Hp. split; [lia|].
  apply lookup_lt_is_Some. unfold sized in Hsize. lia.
Qed.

(** X11. Whenever NEO4J is set, the first event of a run of the script is a
    log record of the raw configuration string, and when the configuration
    code returns, the decoded configuration is logged as well: the
    credentials reach the log on every run, test mode included. *)
Theorem configuration_is_logged (environ : gmap string string) (st : state)
    (s : string) :
  environ !! "NEO4J" = Some s ->
  exists t,
    emitted (script environ st) = EvLog (LStr s) :: t /\
    forall g, result (module_body environ st) = Returned g ->
      EvLog (LJson (NEO4J_CONFIG_DICT g)) ∈ t.
Proof.
  intros Henv.
  assert (Hbody : exists t0,
    emitted (module_body environ st) = EvLog (LStr s) :: t0 /\
    forall g, result (module_body environ st) = Returned g ->
      EvLog (LJson (NEO4J_CONFIG_DICT g)) ∈ t0).
  { destruct (ext_json_decode s) as [j|e] eqn:H1.
    - rewrite (module_body_decoded _ _ _ _ Henv H1).
      eexists. split; [reflexivity|]. intros g [= <-]. apply list_elem_of_here.
    - destruct (is_JSONDecodeError e) eqn:Hcls.
      + rewrite (module_body_retry _ _ _ _ Henv H1 Hcls).
        destruct (ext_json_decode (replace squote dquote s)) as [j|e2].
        * eexists. split; [reflexivity|]. intros g [= <-].
          apply list_elem_of_further, list_elem_of_here.
        * eexists. split; [reflexivity|]. intros g [=].
      + rewrite (module_body_first_error _ _ _ _ Henv H1 Hcls).
        eexists. split; [reflexivity|]. intros g [=]. }
  destruct Hbody as (t0 & Hem & Hlog).
  unfold script. rewrite bind_emitted, Hem.
  destruct (result (module_body environ st)) as [g|e].
  - eexists. split; [reflexivity|]. intros g' [= <-].
    apply elem_of_app. left. apply Hlog. reflexivity.
  - exists t0. split; [reflexivity|]. intros g [=].
Qed.

End ScriptFacts.

(** * Concrete runs *)

#[local] Existing Instance Toy.collaborators.

Lemma node_merges_before_relationship_merges_witness :
  let t1 := [EvIndexRel "Gene-Taxon" tt (Returned tt);
             EvIndexNode "Gene" tt (Returned tt);
             EvIndexNode "Word" tt (Returned tt);
             EvLog (LStr "Create nodes for parser NcbiGeneParser");
             EvMergeNode "Gene" tt (Returned tt);
             EvLog (LStr "Create nodes for parser BigWordListParser");
             EvMergeNode "Word" tt (Returned tt);
             EvLog (LStr "Create relationships for parser NcbiGeneParser")] in
  let t2 := [EvLog (LStr "Create relationships for parser BigWordListParser")] in
  emitted (load_data tt [0; 1] Toy.loaded) =
    t1 ++ EvMergeRel "Gene-Taxon" tt (Returned tt) :: t2 /\
  Forall (fun e => ~ is_node_merge e) t2 /\
  all_nodes_merged [0; 1] (heap Toy.loaded) tt t1.
Proof.
  intros t1 t2. split; [reflexivity|].
  apply (node_merges_before_relationship_merges (H := Toy.collaborators)
           tt [0; 1] Toy.loaded t1 t2 "Gene-Taxon" tt (Returned tt)).
  reflexivity.
Defined.

Lemma index_requests_before_merges_witness :
  let t1 := [EvIndexRel "Gene-Taxon" tt (Returned tt);
             EvIndexNode "Gene" tt (Returned tt);
             EvIndexNode "Word" tt (Returned tt);
             EvLog (LStr "Create nodes for parser NcbiGeneParser")] in
  let t2 := [EvLog (LStr "Create nodes for parser BigWordListParser");
             EvMergeNode "Word" tt (Returned tt);
             EvLog (LStr "Create relationships for parser NcbiGeneParser");
             EvMergeRel "Gene-Taxon" tt (Returned tt);
             EvLog (LStr "Create relationships for parser BigWordListParser")] in
  emitted (load_data tt [0; 1] Toy.loaded) =
    t1 ++ EvMergeNode "Gene" tt (Returned tt) :: t2 /\
  is_merge (EvMergeNode "Gene" tt (Returned tt)) /\
  Forall (fun e => ~ is_index e) t2 /\
  all_indexed [0; 1] (heap Toy.loaded) tt t1.
Proof.
  intros t1 t2. split; [reflexivity|]. split; [left; exact I|].
  apply (index_requests_before_merges (H := Toy.collaborators)
           tt [0; 1] Toy.loaded t1 t2
           (EvMergeNode (H := Toy.collaborators) "Gene" tt (Returned tt))).
  - reflexivity.
  - left. exact I.
Defined.

(** C4 as stated fails on a run where NcbiGene has no local instance: its
    download call, the first of the run, passes no version at all. *)
Lemma download_without_version_counterexample :
  ~ each_after passes_remote_version (emitted (script Toy.environ Toy.start)).
Proof.
  intros Hall.
  destruct (Hall (take 7 (emitted (script Toy.environ Toy.start)))
                 (EvDownload (H := Toy.collaborators)
                             {| ds_class := NcbiGene; ds_root := "/download" |}
                             None None (Returned tt))
                 (drop 8 (emitted (script Toy.environ Toy.start)))
                 ltac:(vm_compute; reflexivity)) as (v & Hv & _).
  discriminate Hv.
Qed.

Lemma store_errors_abort_the_run_witness :
  result (load_data tt [0; 1] Toy.loaded_broken) =
    Raised (Exn "ClientError" "merge failed").
Proof.
  destruct (store_errors_abort_the_run (H := Toy.collaborators) tt [0; 1]
              {| ROOT_DIR := "/download"; RUN_MODE := "prod";
                 NEO4J_CONFIG_DICT := Toy.config_dict |})
    as (_ & _ & _ & Hload & _).
  apply (Hload Toy.loaded_broken
           (take 8 (emitted (load_data (H := Toy.collaborators) tt [0; 1]
                                       Toy.loaded_broken)))
           (EvMergeNode (H := Toy.collaborators) "Broken" tt
                        (Raised (Exn "ClientError" "merge failed")))
           []); reflexivity.
Defined.

Lemma run_parser_returns_its_argument_witness :
  heap Toy.loaded !! 0 = Some Toy.gene_parser /\
  result (run_parser 0 Toy.loaded) = Returned 0 /\
  heap (after (run_parser 0 Toy.loaded)) !! 0 = Some (Toy.parsed Toy.gene_parser).
Proof.
  split; [reflexivity|].
  destruct (run_parser_returns_its_argument (H := Toy.collaborators)
              0 Toy.loaded Toy.gene_parser
              (Toy.parsed Toy.gene_parser) 0 (Returned tt) eq_refl eq_refl)
    as (_ & _ & Hheap & Hres).
  split; [exact Hres|exact Hheap].
Defined.

Lemma test_mode_is_inert_witness :
  lower (default "prod" (Toy.test_environ !! "RUN_MODE")) = "test" /\
  Forall is_log (emitted (script Toy.test_environ Toy.start)) /\
  after (script Toy.test_environ Toy.start) = Toy.start.
Proof.
  split; [vm_compute; reflexivity|].
  apply test_mode_is_inert. vm_compute. reflexivity.
Defined.


Lemma load_data_requests_in_order_witness :
  result (load_data tt [1; 0; 1] Toy.loaded) = Returned tt /\
  emitted (load_data tt [1; 0; 1] Toy.loaded) =
    per_parser (index_requests tt) (heap Toy.loaded) [1; 0; 1]
    ++ per_parser (node_merges tt) (heap Toy.loaded) [1; 0; 1]
    ++ per_parser (relationship_merges tt) (heap Toy.loaded) [1; 0; 1].
Proof.
  split; [reflexivity|].
  apply (load_data_requests_in_order (H := Toy.collaborators)
           tt [1; 0; 1] Toy.loaded tt).
  reflexivity.
Defined.

Lemma failed_request_stops_later_phases_witness :
  result (load_data tt [0; 1] Toy.loaded_broken) =
    Raised (Exn "ClientError" "merge failed") /\
  Forall (fun e => ~ is_rel_merge e)
         (emitted (load_data tt [0; 1] Toy.loaded_broken)).
Proof.
  destruct (failed_request_stops_later_phases (H := Toy.collaborators)
              tt [0; 1] Toy.loaded_broken
              (EvMergeNode (H := Toy.collaborators) "Broken" tt
                           (Raised (Exn "ClientError" "merge failed")))
              (Exn "ClientError" "merge failed"))
    as (Hres & _ & Hnode).
  - apply list_elem_of_In. vm_compute.
    repeat (first [left; reflexivity | right]).
  - reflexivity.
  - split; [exact Hres|]. apply Hnode. exact I.
Defined.

Lemma missing_config_key_stops_before_connecting_witness :
  main Toy.no_user_globals Toy.start =
    Run [] Toy.start (Raised (KeyError "user")).
Proof.
  refine (proj1 (missing_config_key_stops_before_connecting
                   (H := Toy.collaborators) Toy.no_user_globals Toy.start
                   1 "user" (KeyError "user") _ _ _ _)).
  - reflexivity.
  - reflexivity.
  - intros k Hk. cbn in Hk. apply list_elem_of_singleton in Hk as ->.
    eexists. reflexivity.
  - reflexivity.
Defined.

Lemma retry_without_single_quote_witness :
  module_body Toy.bad_environ Toy.start =
    Run [EvLog (LStr "not json"); EvLog (LStr "not json")] Toy.start
        (Raised (JSONDecodeError "Expecting value")).
Proof.
  apply (retry_without_single_quote (H := Toy.collaborators)
           Toy.bad_environ Toy.start "not json" "Expecting value");
    vm_compute; reflexivity.
Defined.

Lemma test_mode_spellings_witness :
  main Toy.test_globals Toy.start =
    Run [EvLog (LStr "Run tests")] Toy.start (Returned tt).
Proof.
  refine (proj1 (proj2 (test_mode_spellings (H := Toy.collaborators)
                          Toy.test_globals Toy.start)) _).
  exists "T"%char, "e"%char, "S"%char, "t"%char.
  repeat split; auto.
Defined.

Lemma main_blocks_in_order_witness :
  Forall (fun e => ~ is_graph e /\ ~ is_datasource_step e)
         (drop 35 (emitted (main Toy.prod_globals Toy.start))).
Proof.
  refine (proj1 (proj2 (main_blocks_in_order (H := Toy.collaborators)
            Toy.prod_globals Toy.start
            (take 34 (emitted (main Toy.prod_globals Toy.start)))
            (drop 35 (emitted (main Toy.prod_globals Toy.start)))
            (EvParser (H := Toy.collaborators) NcbiGeneParser "/download"
                      (Returned 0)) _)) I).
  vm_compute. reflexivity.
Defined.

Lemma store_requests_after_all_parsers_witness :
  all_parsers_ran (take 108 (emitted (main Toy.prod_globals Toy.start))).
Proof.
  apply (store_requests_after_all_parsers (H := Toy.collaborators)
           Toy.prod_globals Toy.start
           (take 108 (emitted (main Toy.prod_globals Toy.start)))
           (drop 109 (emitted (main Toy.prod_globals Toy.start)))
           (EvIndexRel (H := Toy.collaborators) "NcbiGeneParser.rels" tt
                       (Returned tt))).
  - vm_compute. reflexivity.
  - left. exact I.
Defined.

Lemma parsers_done_are_the_new_parsers_witness :
  result (run_parsers "/download" (datasources_at "/download") Toy.loaded) =
    Returned [2; 3; 4; 5; 6; 7; 8; 9; 10; 11; 12; 13] /\
  NoDup [2; 3; 4; 5; 6; 7; 8; 9; 10; 11; 12; 13].
Proof.
  split; [vm_compute; reflexivity|].
  refine (proj1 (proj2 (parsers_done_are_the_new_parsers
            (H := Toy.collaborators) "/download" (datasources_at "/download")
            Toy.loaded [2; 3; 4; 5; 6; 7; 8; 9; 10; 11; 12; 13] _))).
  vm_compute. reflexivity.
Defined.

Lemma configuration_is_logged_witness :
  exists t,
    emitted (script Toy.environ Toy.start) = EvLog (LStr Toy.config_text) :: t /\
    forall g, result (module_body Toy.environ Toy.start) = Returned g ->
      EvLog (LJson (NEO4J_CONFIG_DICT g)) ∈ t.
Proof.
  apply (configuration_is_logged (H := Toy.collaborators)
           Toy.environ Toy.start Toy.config_text).
  vm_compute. reflexivity.
Defined.

Lemma config_parsing_succeeds_iff_witness :
  every_single_quote_replaced Toy.config_text
    (replace squote dquote Toy.config_text) /\
  exists g, result (module_body Toy.environ Toy.start) = Returned g /\
            NEO4J_CONFIG_DICT g = Toy.config_dict.
Proof.
  split; [apply replace_is_replaced|].
  pose proof (config_parsing_succeeds_iff (H := Toy.collaborators)
                Toy.environ Toy.start) as Hc.
  assert (Henv : Toy.environ !! "NEO4J" = Some Toy.config_text)
    by (vm_compute; reflexivity).
  rewrite Henv in Hc.
  destruct (Hc (replace squote dquote Toy.config_text)
               (replace_is_replaced Toy.config_text))
    as (_ & _ & _ & Hretry).
  apply (Hretry (JSONDecodeError "Expecting value")); vm_compute; reflexivity.
Defined.

(** C8 as stated fails on a NEO4J value that is valid JSON and nested
    deeper than the decoder goes: the first attempt raises a RecursionError,
    which the except clause does not catch, and the module raises it
    without a second attempt. *)
Lemma recursion_error_counterexample :
  ~ decodes_or_JSONDecodeError
      (result (module_body Toy.deep_environ Toy.start)).
Proof.
  rewrite (module_body_first_error (H := Toy.collaborators)
             Toy.deep_environ Toy.start (Toy.nested 100000)
             (Exn "RecursionError"
                  "maximum recursion depth exceeded while decoding a JSON array from a unicode string")).
  - unfold decodes_or_JSONDecodeError. cbn [result]. intros Hc.
    vm_compute in Hc. discriminate Hc.
  - apply lookup_singleton_eq.
  - vm_compute. reflexivity.
  - vm_compute. reflexivity.
Qed.


(** * Properties of the NodeSet / RelationshipSet core *)

Section UpsertFacts.
Context {X K : Type} (ident : X -> K) (same : X -> X -> bool).
Hypothesis same_spec : forall y x, same y x = true <-> ident y = ident x.

Lemma same_refl x : same x x = true.
Proof. apply same_spec. reflexivity. Qed.

Lemma ident_step y x : ident (if same y x then x else y) = ident y.
Proof.
  destruct (same y x) eqn:Hs; [|reflexivity].
  symmetry. apply same_spec. exact Hs.
Qed.

Lemma ident_settle xs y : ident (settle same xs y) = ident y.
Proof.
  revert y. induction xs as [|x xs IH]; intros y; cbn; [reflexivity|].
  unfold settle in IH. rewrite IH. apply ident_step.
Qed.

Lemma settle_snoc xs x y :
  settle same (xs ++ [x]) y = if same (settle same xs y) x then x else settle same xs y.
Proof. unfold settle. rewrite fold_left_app. reflexivity. Qed.

Lemma same_ident y y' x : ident y = ident y' -> same y x = same y' x.
Proof.
  intros Hid. destruct (same y x) eqn:Hy, (same y' x) eqn:Hy'; try reflexivity.
  - apply same_spec in Hy. rewrite Hid in Hy. apply same_spec in Hy. congruence.
  - apply same_spec in Hy'. rewrite <- Hid in Hy'. apply same_spec in Hy'.
    congruence.
Qed.

Lemma existsb_present l x : existsb (fun y => same y x) l = true <-> present ident l x.
Proof.
  rewrite existsb_exists. split.
  - intros (y & Hy & Hs). exists y. split.
    + apply list_elem_of_In. exact Hy.
    + apply same_spec. exact Hs.
  - intros (y & Hy & Hs). exists y. split.
    + apply list_elem_of_In. exact Hy.
    + apply same_spec. exact Hs.
Qed.

Lemma put_present l x :
  present ident l x -> put same l x = map (fun y => if same y x then x else y) l.
Proof.
  intros Hp. unfold put. apply existsb_present in Hp. rewrite Hp. reflexivity.
Qed.

Lemma present_put l x z : present ident l z \/ ident z = ident x -> present ident (put same l x) z.
Proof.
  unfold put. destruct (existsb (fun y => same y x) l) eqn:Hex.
  - apply existsb_present in Hex. intros [(y & Hy & Hid)|Hid].
    + exists (if same y x then x else y). split.
      * apply (list_elem_of_fmap_2 (fun y => if same y x then x else y)). exact Hy.
      * rewrite ident_step. exact Hid.
    + destruct Hex as (y & Hy & Hyx).
      exists (if same y x then x else y). split.
      * apply (list_elem_of_fmap_2 (fun y => if same y x then x else y)). exact Hy.
      * rewrite ident_step. congruence.
  - intros [(y & Hy & Hid)|Hid].
    + exists y. split; [apply elem_of_app; left; exact Hy|exact Hid].
    + exists x. split; [|congruence].
      apply elem_of_app. right. apply list_elem_of_here.
Qed.

Lemma present_fold_put xs l z :
  present ident l z \/ (exists x, x ∈ xs /\ ident z = ident x) ->
  present ident (fold_left (put same) xs l) z.
Proof.
  revert l. induction xs as [|x xs IH]; intros l Hz; cbn.
  - destruct Hz as [Hz|(x & Hx & _)]; [exact Hz|inversion Hx].
  - apply IH. destruct Hz as [Hz|(x' & Hx' & Hid)].
    + left. apply present_put. left. exact Hz.
    + apply elem_of_cons in Hx' as [->|Hx'].
      * left. apply present_put. right. exact Hid.
      * right. eauto.
Qed.

(** On a list that holds every identity of [xs], the upserts create
    nothing: each item settles in place. *)
Lemma fold_put_settles xs l :
  (forall x, x ∈ xs -> present ident l x) ->
  fold_left (put same) xs l = map (settle same xs) l.
Proof.
  revert l. induction xs as [|x xs IH]; intros l Hp; cbn.
  - symmetry. apply map_id.
  - rewrite IH.
    + rewrite put_present by (apply Hp, list_elem_of_here).
      rewrite map_map. reflexivity.
    + intros x' Hx'. apply present_put. left. apply Hp.
      apply list_elem_of_further. exact Hx'.
Qed.

(** Every item of a store built by the upserts [xs] has settled. *)
Lemma fold_put_settled xs :
  forall y, y ∈ fold_left (put same) xs [] -> settle same xs y = y.
Proof.
  induction xs as [|x xs IH] using rev_ind; intros y Hy.
  - inversion Hy.
  - rewrite fold_left_app in Hy. cbn [fold_left] in Hy. rewrite settle_snoc.
    set (l := fold_left (put same) xs []) in *.
    unfold put in Hy.
    destruct (existsb (fun y => same y x) l) eqn:Hex.
    + apply list_elem_of_fmap in Hy as (y0 & -> & Hy0).
      destruct (same y0 x) eqn:Hs.
      * rewrite (same_ident _ x x) by apply ident_settle.
        rewrite same_refl. reflexivity.
      * rewrite (IH _ Hy0), Hs. reflexivity.
    + apply elem_of_app in Hy as [Hy|Hy].
      * rewrite (IH _ Hy).
        destruct (same y x) eqn:Hs; [|reflexivity].
        assert (Hp : existsb (fun y => same y x) l = true).
        { apply existsb_present. exists y. split; [exact Hy|].
          apply same_spec. exact Hs. }
        congruence.
      * apply list_elem_of_singleton in Hy as ->.
        rewrite (same_ident _ x x) by apply ident_settle.
        rewrite same_refl. reflexivity.
Qed.

(** Replaying the upserts on the store they built changes nothing. *)
Lemma fold_put_idempotent xs :
  fold_left (put same) xs (fold_left (put same) xs []) = fold_left (put same) xs [].
Proof.
  rewrite fold_put_settles.
  - rewrite <- (map_id (fold_left (put same) xs [])) at 2.
    apply map_ext_in. intros y Hy. apply fold_put_settled.
    apply list_elem_of_In. exact Hy.
  - intros x Hx. apply present_fold_put. right. eauto.
Qed.

End UpsertFacts.

Section CoreFacts.
Import Core.

Lemma combine_lookup (earlier later : gmap string value) (f : string) :
  combine earlier later !! f =
    match earlier !! f, later !! f with
    | Some e, Some l => Some (if is_null l then e else l)
    | Some e, None => Some e
    | None, o => o
    end.
Proof.
  unfold combine. rewrite lookup_union_with.
  destruct (earlier !! f), (later !! f); reflexivity.
Qed.

Section Dedup.
Context {K : Type} `{EqDecision K} (key : gmap string value -> K).
Hypothesis key_combine :
  forall s r, key s = key r -> key (combine s r) = key s.

Lemma dedup_snoc rs r : dedup key (rs ++ [r]) = absorb key r (dedup key rs).
Proof. unfold dedup. rewrite fold_left_app. reflexivity. Qed.

(** The keys kept: a key seen before stays where it is, a new key is put
    at the end. *)
Lemma absorb_keys r seen :
  key <$> absorb key r seen =
    if decide (key r ∈ key <$> seen) then key <$> seen
    else (key <$> seen) ++ [key r].
Proof.
  induction seen as [|s seen IH]; cbn.
  - destruct (decide (key r ∈ [])) as [Hin|_]; [inversion Hin|reflexivity].
  - destruct (decide (key s = key r)) as [Heq|Hne]; cbn.
    + rewrite (key_combine _ _ Heq).
      destruct (decide (key r ∈ key s :: (key <$> seen))) as [_|Hout];
        [reflexivity|].
      destruct Hout. rewrite Heq. apply list_elem_of_here.
    + rewrite IH.
      destruct (decide (key r ∈ key <$> seen)) as [Hin|Hout];
        destruct (decide (key r ∈ key s :: (key <$> seen))) as [Hin'|Hout'];
        try reflexivity.
      * destruct Hout'. apply list_elem_of_further. exact Hin.
      * apply elem_of_cons in Hin' as [Heq|Hin']; [congruence|contradiction].
Qed.

Lemma dedup_keys rs :
  NoDup (key <$> dedup key rs) /\
  forall k, k ∈ key <$> dedup key rs <-> k ∈ key <$> rs.
Proof.
  induction rs as [|x rs IH] using rev_ind.
  - split; [constructor|reflexivity].
  - destruct IH as [Hnd Hin]. rewrite dedup_snoc, absorb_keys, fmap_app.
    destruct (decide (key x ∈ key <$> dedup key rs)) as [Hp|Hp].
    + split; [exact Hnd|]. intros k. rewrite elem_of_app, Hin. cbn.
      rewrite list_elem_of_singleton. split; [auto|].
      intros [Hk| ->]; [exact Hk|]. apply Hin. exact Hp.
    + split.
      * apply NoDup_app. split; [exact Hnd|]. split; [|apply NoDup_singleton].
        intros k Hk1 Hk2. apply list_elem_of_singleton in Hk2 as ->.
        contradiction.
      * intros k. rewrite !elem_of_app, Hin. reflexivity.
Qed.

Lemma absorb_elem r seen r' :
  NoDup (key <$> seen) -> r' ∈ absorb key r seen ->
  (r' ∈ seen /\ key r' <> key r) \/
  (exists s, s ∈ seen /\ key s = key r /\ r' = combine s r) \/
  (r' = r /\ key r ∉ key <$> seen).
Proof.
  induction seen as [|s seen IH]; cbn; intros Hnd Hin.
  - apply list_elem_of_singleton in Hin as ->. right. right.
    split; [reflexivity|apply not_elem_of_nil].
  - apply NoDup_cons in Hnd as [Hs Hnd].
    destruct (decide (key s = key r)) as [Heq|Hne].
    + apply elem_of_cons in Hin as [->|Hin].
      * right. left. exists s. split; [apply list_elem_of_here|auto].
      * left. split; [apply list_elem_of_further; exact Hin|].
        intros Hk. apply Hs. rewrite Heq, <- Hk.
        apply list_elem_of_fmap_2. exact Hin.
    + apply elem_of_cons in Hin as [->|Hin].
      * left. split; [apply list_elem_of_here|exact Hne].
      * destruct (IH Hnd Hin) as [[H1 H2]|[(s0 & H1 & H2 & H3)|[H1 H2]]].
        -- left. split; [apply list_elem_of_further|]; assumption.
        -- right. left. exists s0.
           split; [apply list_elem_of_further|]; auto.
        -- right. right. split; [exact H1|].
           apply not_elem_of_cons. split; [congruence|exact H2].
Qed.

Lemma filter_key_absent (k : K) rs :
  k ∉ key <$> rs -> filter (fun r => key r = k) rs = [].
Proof.
  induction rs as [|x rs IH]; intros Hout; [reflexivity|].
  cbn in Hout. apply not_elem_of_cons in Hout as [Hne Hout].
  rewrite filter_cons_False by congruence. apply IH. exact Hout.
Qed.

(** A Record kept is the combination, in insertion order, of the Records
    that carry its key. *)
Lemma dedup_groups rs r' :
  r' ∈ dedup key rs ->
  exists h t, filter (fun r => key r = key r') rs = h :: t /\
              r' = fold_left combine t h.
Proof.
  revert r'. induction rs as [|x rs IH] using rev_ind; intros r' Hin.
  - inversion Hin.
  - rewrite dedup_snoc in Hin. destruct (dedup_keys rs) as [Hnd Hkeys].
    apply absorb_elem in Hin as [[Hin Hne]|[(s & Hs & Heq & ->)|[-> Hnew]]];
      [| | |exact Hnd]; rewrite filter_app.
    + rewrite (filter_cons_False _ x) by exact (fun Hk => Hne (eq_sym Hk)).
      rewrite filter_nil, app_nil_r. apply IH. exact Hin.
    + rewrite (key_combine _ _ Heq).
      destruct (IH s Hs) as (h & t & Hf & Hfold).
      rewrite Hf, (filter_cons_True _ x) by (symmetry; exact Heq).
      rewrite filter_nil. exists h, (t ++ [x]). split; [reflexivity|].
      rewrite fold_left_app. cbn. rewrite <- Hfold. reflexivity.
    + rewrite (filter_key_absent (key x) rs)
        by (intros Hk; apply Hnew, Hkeys; exact Hk).
      rewrite (filter_cons_True _ x) by reflexivity.
      rewrite filter_nil. exists x, []. split; reflexivity.
Qed.

End Dedup.

Lemma key_of_combine keys (s r : gmap string value) :
  key_of keys s = key_of keys r -> key_of keys (combine s r) = key_of keys s.
Proof.
  unfold key_of. induction keys as [|k keys IH]; cbn; [reflexivity|].
  intros [= Hk Hrest]. f_equal; [|apply IH; exact Hrest].
  rewrite combine_lookup, Hk.
  destruct (r !! k) as [v|]; [|reflexivity]. destruct (is_null v); reflexivity.
Qed.

(** What a scan in insertion order keeps for a field. *)
Lemma fold_combine_keeps (g : list (gmap string value)) x f v :
  x !! f = Some v -> Forall (null_or_absent f) g ->
  fold_left combine g x !! f = Some v.
Proof.
  revert x. induction g as [|r g IH]; intros x Hx Hg; [exact Hx|].
  apply Forall_cons in Hg as [Hr Hg]. cbn. apply IH; [|exact Hg].
  rewrite combine_lookup, Hx. destruct Hr as [-> | ->]; reflexivity.
Qed.

Lemma fold_combine_last (g1 g2 t : list (gmap string value)) h r f v :
  h :: t = g1 ++ r :: g2 ->
  r !! f = Some v -> v <> VNull -> Forall (null_or_absent f) g2 ->
  fold_left combine t h !! f = Some v.
Proof.
  intros Heq Hr Hv Hg2. destruct g1 as [|h' g1]; cbn in Heq.
  - injection Heq as -> ->. apply fold_combine_keeps; assumption.
  - injection Heq as -> ->. rewrite fold_left_app. cbn.
    apply fold_combine_keeps; [|exact Hg2].
    rewrite combine_lookup, Hr.
    destruct (fold_left combine g1 h' !! f); [|reflexivity].
    destruct v; cbn; congruence.
Qed.

Lemma fold_combine_null (g : list (gmap string value)) x f :
  null_or_absent f x -> Forall (null_or_absent f) g ->
  null_or_absent f (fold_left combine g x).
Proof.
  revert x. induction g as [|r g IH]; intros x Hx Hg; [exact Hx|].
  apply Forall_cons in Hg as [Hr Hg]. cbn. apply IH; [|exact Hg].
  unfold null_or_absent in *. rewrite combine_lookup.
  destruct Hx as [-> | ->], Hr as [-> | ->]; cbn; auto.
Qed.

Lemma fold_combine_absent (g : list (gmap string value)) x f :
  fold_left combine g x !! f = None <->
  Forall (fun r => r !! f = None) (x :: g).
Proof.
  revert x. induction g as [|r g IH]; intros x; cbn.
  - split; [intros Hx; repeat constructor; exact Hx|].
    intros Hx. apply Forall_cons in Hx as [Hx _]. exact Hx.
  - rewrite IH, !Forall_cons, combine_lookup.
    destruct (x !! f) as [e|], (r !! f) as [l|]; split;
      intros Hall; repeat split; try tauto; try (destruct Hall; congruence);
      try (destruct Hall as (? & ? & ?); congruence).
Qed.

(** C6. With merge key [id], the Records [{id:1,name:"a"}],
    [{id:1,name:None}], [{id:1,city:"X"}] deduplicate to the single Record
    [{id:1,name:"a",city:"X"}].  For every NodeSet, [deduplicate] keeps one
    Record for each combination of merge-key values; for each field, that
    Record holds the value of the last Record of its key, in insertion
    order, that has a non-null value for the field: a later non-null
    value overwrites an earlier one, and a null, or a missing field, of a
    later Record overwrites nothing.  When no Record of the key has a
    non-null value for the field, the Record kept has null for it, or
    nothing when the field is in none of them. *)
Theorem deduplicate_example :
  records (deduplicate example_nodeset) =
    [ {[ "id" := VNum 1; "name" := VStr "a"; "city" := VStr "X" ]} ] /\
  forall ns : NodeSet,
    NoDup (key_of (merge_keys ns) <$> records (deduplicate ns)) /\
    (forall r, r ∈ records ns ->
       exists r', r' ∈ records (deduplicate ns) /\
                  key_of (merge_keys ns) r' = key_of (merge_keys ns) r) /\
    (forall r', r' ∈ records (deduplicate ns) ->
       group_of ns r' <> [] /\
       forall f,
         (forall g1 r g2 v,
            group_of ns r' = g1 ++ r :: g2 ->
            r !! f = Some v -> v <> VNull ->
            Forall (null_or_absent f) g2 ->
            r' !! f = Some v) /\
         (Forall (null_or_absent f) (group_of ns r') -> null_or_absent f r') /\
         (r' !! f = None <-> Forall (fun r => r !! f = None) (group_of ns r'))).
Proof.
  split; [vm_compute; reflexivity|]. intros ns.
  pose proof (dedup_keys (key_of (merge_keys ns))
                (key_of_combine (merge_keys ns)) (records ns)) as [Hnd Hkeys].
  split; [exact Hnd|]. split.
  - intros r Hr.
    assert (Hk : key_of (merge_keys ns) r
                 ∈ key_of (merge_keys ns) <$> records (deduplicate ns)).
    { apply Hkeys. apply list_elem_of_fmap_2. exact Hr. }
    apply list_elem_of_fmap in Hk as (r' & Heq & Hr'). eauto.
  - intros r' Hr'.
    destruct (dedup_groups (key_of (merge_keys ns))
                (key_of_combine (merge_keys ns)) (records ns) r' Hr')
      as (h & t & Hgroup & ->).
    unfold group_of. rewrite Hgroup. split; [discriminate|]. intros f.
    split; [|split].
    + intros g1 r g2 v Heq Hr Hv Hg2.
      eapply fold_combine_last; eauto.
    + intros Hall. apply Forall_cons in Hall as [Hh Ht].
      apply fold_combine_null; assumption.
    + apply fold_combine_absent.
Qed.

Lemma node_same_spec c y x :
  node_same c y x = true <-> node_ident c y = node_ident c x.
Proof.
  unfold node_same, node_matches, node_ident. rewrite bool_decide_eq_true.
  split.
  - intros [Hl Hk]. rewrite Hl, Hk. reflexivity.
  - intros [= Hl Hk]. rewrite Hl in Hk. auto.
Qed.

Lemma edge_same_spec c y x :
  edge_same c y x = true <-> edge_ident c y = edge_ident c x.
Proof.
  unfold edge_same, edge_matches, edge_ident. rewrite bool_decide_eq_true.
  split.
  - intros (Hs & Hd & Ht & Hk). rewrite Hs, Hd, Ht, Hk. reflexivity.
  - intros [= Hs Hd Ht Hk]. rewrite Ht in Hk. auto.
Qed.

Lemma schema_consistent c ns :
  consistent c -> ns ∈ nodesets c -> merge_keys ns = schema c (label ns).
Proof.
  intros [Hc _] Hns. unfold schema.
  destruct (List.find _ (nodesets c)) as [ns'|] eqn:Hfind.
  - apply find_some in Hfind as [Hin Heq]. apply String.eqb_eq in Heq.
    apply Hc; auto. apply list_elem_of_In. exact Hin.
  - apply list_elem_of_In in Hns.
    pose proof (find_none _ _ Hfind _ Hns) as Hne. cbn in Hne.
    rewrite String.eqb_refl in Hne. discriminate.
Qed.

Lemma eschema_consistent c rs :
  consistent c -> rs ∈ relationshipsets c -> edge_keys rs = eschema c (rel_type rs).
Proof.
  intros [_ Hc] Hrs. unfold eschema.
  destruct (List.find _ (relationshipsets c)) as [rs'|] eqn:Hfind.
  - apply find_some in Hfind as [Hin Heq]. apply String.eqb_eq in Heq.
    apply Hc; auto. apply list_elem_of_In. exact Hin.
  - apply list_elem_of_In in Hrs.
    pose proof (find_none _ _ Hfind _ Hrs) as Hne. cbn in Hne.
    rewrite String.eqb_refl in Hne. discriminate.
Qed.

Lemma merge_nodeset_put c ns st :
  merge_keys ns = schema c (label ns) ->
  merge_nodeset st ns =
    {| nodes := fold_left (put (node_same c)) (node_items ns) (nodes st);
       edges := edges st |}.
Proof.
  intros Hk. unfold merge_nodeset, node_items. f_equal.
  generalize (nodes st). generalize (records (deduplicate ns)).
  intros rs. induction rs as [|r rs IH]; intros l; cbn; [reflexivity|].
  rewrite IH. rewrite Hk. reflexivity.
Qed.

Lemma merge_nodesets_put c nss st :
  (forall ns, ns ∈ nss -> merge_keys ns = schema c (label ns)) ->
  fold_left merge_nodeset nss st =
    {| nodes := fold_left (put (node_same c)) (flat_map node_items nss) (nodes st);
       edges := edges st |}.
Proof.
  revert st. induction nss as [|ns nss IH]; intros st Hk; cbn.
  - destruct st; reflexivity.
  - rewrite IH by (intros; apply Hk, list_elem_of_further; assumption).
    rewrite (merge_nodeset_put c) by apply Hk, list_elem_of_here.
    cbn. rewrite fold_left_app. reflexivity.
Qed.

Lemma upsert_edges_replays c rs es st st' :
  edge_keys rs = eschema c (rel_type rs) ->
  upsert_edges rs es st = inr st' -> replays c (upsert_edges rs es) st.
Proof.
  intros Hk. revert st st'. induction es as [|e es IH]; intros st st' Hrun.
  - exists []. intros st2 _. destruct st2; reflexivity.
  - cbn in Hrun. unfold upsert_edge in Hrun.
    destruct (find_node (start_label rs) (start_keys rs) (start_match e) (nodes st))
      as [s|] eqn:Hs; [|discriminate].
    destruct (find_node (end_label rs) (end_keys rs) (end_match e) (nodes st))
      as [d|] eqn:Hd; [|discriminate].
    destruct (IH _ _ Hrun) as (items & Hitems). cbn [nodes] in Hitems.
    exists ({| e_src := s; e_dst := d; e_type := rel_type rs;
               e_props := edge_props e |} :: items).
    intros st2 Hst2. cbn. unfold upsert_edge. rewrite Hst2, Hs, Hd.
    rewrite Hitems by reflexivity. cbn. rewrite Hk. reflexivity.
Qed.

Lemma merge_relationshipsets_replays c rss st st' :
  (forall rs, rs ∈ rss -> edge_keys rs = eschema c (rel_type rs)) ->
  merge_relationshipsets rss st = inr st' ->
  replays c (merge_relationshipsets rss) st.
Proof.
  revert st st'. induction rss as [|rs rss IH]; intros st st' Hk Hrun.
  - exists []. intros st2 _. destruct st2; reflexivity.
  - cbn in Hrun. unfold merge_relationshipset in Hrun.
    destruct (upsert_edges rs (deduplicate_edges rs) st) as [err|st1] eqn:H1;
      [discriminate|].
    destruct (upsert_edges_replays c rs _ _ _
                (Hk rs (list_elem_of_here _ _)) H1) as (items1 & Hitems1).
    pose proof (Hitems1 st eq_refl) as Hst1. rewrite H1 in Hst1.
    injection Hst1 as ->.
    destruct (IH _ _ (fun rs' Hrs' => Hk rs' (list_elem_of_further _ _ _ Hrs')) Hrun)
      as (items2 & Hitems2). cbn [nodes] in Hitems2.
    exists (items1 ++ items2). intros st2 Hst2. cbn.
    unfold merge_relationshipset. rewrite (Hitems1 st2 Hst2).
    rewrite Hitems2 by (cbn; exact Hst2). cbn.
    rewrite fold_left_app. reflexivity.
Qed.

(** C2, for Containers in which a label has one merge-key schema and a
    relationship type one edge-key schema: when the merge into the empty
    store succeeds, merging the same Container again succeeds and leaves
    the store of the first merge (the same nodes and edges, with the same
    property values). *)
Theorem merge_idempotent (c : Container) :
  consistent c -> idempotent_on c.
Proof.
  intros Hc s1 Hfirst. unfold merge in *.
  rewrite (merge_nodesets_put c) in Hfirst
    by (intros; apply schema_consistent; assumption).
  rewrite (merge_nodesets_put c)
    by (intros; apply schema_consistent; assumption).
  cbn [nodes edges empty_store] in Hfirst.
  destruct (merge_relationshipsets_replays c _ _ _
              (fun rs Hrs => eschema_consistent c rs Hc Hrs) Hfirst)
    as (items & Hitems). cbn [nodes] in Hitems.
  rewrite Hitems in Hfirst by reflexivity. injection Hfirst as <-.
  cbn [nodes edges].
  rewrite (fold_put_idempotent (node_ident c) (node_same c) (node_same_spec c)).
  rewrite Hitems by reflexivity. cbn [nodes edges].
  rewrite (fold_put_idempotent (edge_ident c) (edge_same c) (edge_same_spec c)).
  reflexivity.
Qed.

(** C2 as stated fails on two NodeSets that share the label [L] and
    declare the merge keys [id] and [x]: the first merge leaves one node,
    the second merge leaves two. *)
Lemma merge_twice_counterexample : ~ idempotent_on clash.
Proof.
  intros Hid.
  assert (Hfirst : merge clash empty_store =
    inr {| nodes := [ {| n_label := "L";
                         n_props := {[ "x" := VNum 2; "id" := VNum 5 ]} |} ];
           edges := [] |}) by (vm_compute; reflexivity).
  apply Hid in Hfirst. vm_compute in Hfirst. discriminate Hfirst.
Qed.

Lemma scenario_consistent : consistent scenario.
Proof.
  split.
  - intros a b Ha Hb.
    cbn in Ha, Hb.
    repeat (apply elem_of_cons in Ha as [->|Ha]);
    repeat (apply elem_of_cons in Hb as [->|Hb]);
    try (inversion Ha); try (inversion Hb); cbn; congruence.
  - intros a b Ha Hb.
    cbn in Ha, Hb.
    repeat (apply elem_of_cons in Ha as [->|Ha]);
    repeat (apply elem_of_cons in Hb as [->|Hb]);
    try (inversion Ha); try (inversion Hb); cbn; congruence.
Qed.

End CoreFacts.

Lemma merge_idempotent_witness :
  Core.consistent Core.scenario /\ idempotent_on Core.scenario.
Proof.
  split; [exact scenario_consistent|].
  apply merge_idempotent. exact scenario_consistent.
Defined.

Lemma deduplicate_example_witness :
  let r' : gmap string Core.value :=
    {[ "id" := Core.VNum 1; "name" := Core.VStr "b" ]} in
  r' ∈ Core.records (Core.deduplicate Core.renamed_nodeset) /\
  r' !! "name" = Some (Core.VStr "b").
Proof.
  intros r'.
  assert (Hr' : r' ∈ Core.records (Core.deduplicate Core.renamed_nodeset)).
  { apply list_elem_of_In. vm_compute. left. reflexivity. }
  split; [exact Hr'|].
  destruct deduplicate_example as (_ & Hall).
  destruct (Hall Core.renamed_nodeset) as (_ & _ & Hpolicy).
  destruct (Hpolicy r' Hr') as (_ & Hfield).
  destruct (Hfield "name") as (Hlast & _).
  apply (Hlast [ {[ "id" := Core.VNum 1; "name" := Core.VStr "a" ]} ]
               {[ "id" := Core.VNum 1; "name" := Core.VStr "b" ]} []).
  - vm_compute. reflexivity.
  - vm_compute. reflexivity.
  - discriminate.
  - constructor.
Defined.
